(** * Tabby VS Code client: the authorization and commit-message commands

    A shallow embedding of [clients/vscode/src/commands.ts]: the
    [tabby.openAuthPage] command and the
    [tabby.experimental.chat.generateCommitMessage] command, together with
    the JavaScript built-ins they rely on ([String.prototype.trim],
    [String.prototype.split] with the pattern [/\n(?=diff)/],
    [RegExp.prototype.exec] with the git header pattern,
    [Array.prototype.sort]).

    Strings are sequences of UTF-16 code units, as in the language; numbers
    that the code uses as timestamps are integers.  Effects (hooks,
    notifications, agent calls, the commit input box) are threaded through a
    small state-and-exception monad whose state carries an event log. *)

From Stdlib Require Import ZArith NArith List Bool Lia String Ascii.
From Stdlib Require Import Permutation Sorted.
Import ListNotations.

Local Open Scope Z_scope.

(** ** JavaScript strings *)

Module Js.

(** A string value is a finite sequence of 16-bit code units. *)
Definition char : Type := N.
Definition jsstring : Type := list char.

(** String literals of the source, written with 8-bit characters. *)
Definition lit (s : string) : jsstring :=
  List.map N_of_ascii (list_ascii_of_string s).

Definition LF : char := 10%N.

Fixpoint eqb (s t : jsstring) : bool :=
  match s, t with
  | [], [] => true
  | c :: s', d :: t' => N.eqb c d && eqb s' t'
  | _, _ => false
  end.

Definition jsstring_eq_dec : forall s t : jsstring, {s = t} + {s <> t} :=
  list_eq_dec N.eq_dec.

(** [s.startsWith(p)] *)
Fixpoint startsWith (s p : jsstring) : bool :=
  match p with
  | [] => true
  | c :: p' =>
      match s with
      | [] => false
      | d :: s' => N.eqb d c && startsWith s' p'
      end
  end.

(** ECMAScript [WhiteSpace]: TAB, VT, FF, ZWNBSP and the Unicode
    space separators. *)
Definition isWhiteSpace (c : char) : bool :=
  (N.eqb c 0x09 || N.eqb c 0x0B || N.eqb c 0x0C || N.eqb c 0x20
   || N.eqb c 0xA0 || N.eqb c 0x1680
   || (N.leb 0x2000 c && N.leb c 0x200A)
   || N.eqb c 0x202F || N.eqb c 0x205F || N.eqb c 0x3000
   || N.eqb c 0xFEFF)%N.

(** ECMAScript [LineTerminator]: LF, CR, LS, PS.  These are the code units
    that [.] does not match and before which [$] matches under the [m]
    flag. *)
Definition isLineTerminator (c : char) : bool :=
  (N.eqb c 0x0A || N.eqb c 0x0D || N.eqb c 0x2028 || N.eqb c 0x2029)%N.

(** The code units removed by [trim]: white space and line terminators. *)
Definition isTrimmed (c : char) : bool :=
  isWhiteSpace c || isLineTerminator c.

Fixpoint trimStart (s : jsstring) : jsstring :=
  match s with
  | [] => []
  | c :: s' => if isTrimmed c then trimStart s' else s
  end.

Definition trimEnd (s : jsstring) : jsstring :=
  rev (trimStart (rev s)).

(** [s.trim()] *)
Definition trim (s : jsstring) : jsstring := trimEnd (trimStart s).

(** [l.join(sep)] *)
Fixpoint join (sep : jsstring) (l : list jsstring) : jsstring :=
  match l with
  | [] => []
  | [x] => x
  | x :: l' => x ++ sep ++ join sep l'
  end.

(** A value is falsy as a string exactly when it is empty. *)
Definition truthy (s : jsstring) : bool :=
  match s with [] => false | _ :: _ => true end.

(** [Number.MAX_SAFE_INTEGER] *)
Definition MAX_SAFE_INTEGER : Z := 2 ^ 53 - 1.

(** [Array.prototype.sort(comparefn)].  The built-in is a stable sort; the
    element [x] is placed in front of the first element [y] of the already
    sorted tail for which [comparefn x y <= 0], so that equal elements keep
    their order.  For a consistent comparison function the result does not
    depend on the algorithm; for an inconsistent one the language leaves
    the order to the implementation, and the function gives the order that
    this insertion procedure produces. *)
Section Sort.
Context {A : Type} (comparefn : A -> A -> Z).

Fixpoint insert (x : A) (l : list A) : list A :=
  match l with
  | [] => [x]
  | y :: l' =>
      if 0 <? comparefn x y then y :: insert x l' else x :: y :: l'
  end.

Fixpoint sort (l : list A) : list A :=
  match l with
  | [] => []
  | x :: l' => insert x (sort l')
  end.
End Sort.

End Js.

Import Js.

(** ** The two patterns of the commit-message command *)

Definition kw_diff : jsstring := Eval cbv in lit "diff".
Definition kw_header : jsstring := Eval cbv in lit "diff --git a/".
Definition kw_b : jsstring := Eval cbv in lit " b/".

(** [/\n(?=diff)/] matches at a code unit [c] followed by [rest] when [c]
    is a line feed and [rest] begins with [diff]; the match consumes the
    line feed only. *)
Definition isBoundary (c : char) (rest : jsstring) : bool :=
  N.eqb c LF && startsWith rest kw_diff.

(** [s.split(/\n(?=diff)/)]: scan from the left; [cur] is the text since
    the end of the last match.  At a match the text collected so far is
    emitted and the scan resumes behind the consumed line feed. *)
Fixpoint split_scan (cur : jsstring) (s : jsstring) : list jsstring :=
  match s with
  | [] => [cur]
  | c :: rest =>
      if isBoundary c rest then cur :: split_scan [] rest
      else split_scan (cur ++ [c]) rest
  end.

Definition split_diff (s : jsstring) : list jsstring := split_scan [] s.

(** The number of places where the split pattern matches. *)
Fixpoint count_boundaries (s : jsstring) : nat :=
  match s with
  | [] => 0%nat
  | c :: rest =>
      if isBoundary c rest then S (count_boundaries rest)
      else count_boundaries rest
  end.

(** The rest of the current line: a run of code units other than line
    terminators can consume exactly a prefix of it. *)
Fixpoint line_of (s : jsstring) : jsstring :=
  match s with
  | [] => []
  | c :: s' => if isLineTerminator c then [] else c :: line_of s'
  end.

(** The text behind the last occurrence of [kw_b] in a line: the greedy
    star in front of it backtracks from the end of the line, so the
    occurrence that starts furthest to the right wins, and the greedy
    capture group followed by [$] takes the rest of the line. *)
Fixpoint after_last_b (line : jsstring) : option jsstring :=
  match line with
  | [] => None
  | c :: line' =>
      match after_last_b line' with
      | Some r => Some r
      | None =>
          if startsWith line kw_b then Some (skipn 3 line) else None
      end
  end.

(** An attempt to match the header pattern at the start of [s].  The
    pattern reads: the text [kw_header], a greedy run of code units other
    than line terminators, the text [kw_b], a captured greedy run of the
    same kind, and the end of a line (flag [m]).  The result is capture
    group 1. *)
Definition match_header_here (s : jsstring) : option jsstring :=
  if startsWith s kw_header
  then after_last_b (line_of (skipn (List.length kw_header) s))
  else None.

(** [exec] of the header pattern on [item], then [?.[1]]: the leftmost
    position at which the pattern matches decides; the pattern object is
    fresh, so the search starts at index 0. *)
Fixpoint exec_header (item : jsstring) : option jsstring :=
  match match_header_here item with
  | Some r => Some r
  | None =>
      match item with
      | [] => None
      | _ :: item' => exec_header item'
      end
  end.

(** ** Values that cross the boundary to the editor host and the agent *)

(** What a [throw] or a rejected promise carries.  The handlers of this
    file only read the [name] property of the value: reading it from
    [null] or [undefined] raises a [TypeError], any other value yields a
    name (the empty name stands for a missing one). *)
Inductive thrown : Type :=
| ThrownNullish
| ThrownError (name : jsstring).

(** How an evaluation or an awaited promise ends. *)
Inductive completion (A : Type) : Type :=
| Normal (a : A)
| Abrupt (e : thrown).
Arguments Normal {A} a.
Arguments Abrupt {A} e.

Definition completion_map {A B : Type} (f : A -> B) (c : completion A)
  : completion B :=
  match c with
  | Normal a => Normal (f a)
  | Abrupt e => Abrupt e
  end.

Record Uri : Type := { fsPath : jsstring }.

Record FileStat : Type := { mtime : Z }.

(** The members of the git extension's [Repository] that the command
    reads.  [repo_diff cached] is the settled result of [repo.diff(cached)];
    the input box is mutable and lives in the [world] below. *)
Record Repository : Type := {
  rootUri : Uri;
  ui_selected : bool;
  repo_diff : bool -> completion jsstring
}.

Record QuickPickItem : Type := {
  label : jsstring;
  detail : jsstring;
  picked : bool;
  value : Repository
}.

(** The members of [notifications] that the authorization command calls:
    [showInformationAuthSuccess],
    [showInformationWhenStartAuthButAlreadyAuthorized] and
    [showInformationWhenAuthFailed]. *)
Inductive notification : Type :=
| AuthSuccess
| StartAuthButAlreadyAuthorized
| AuthFailed.

Record AuthUrl : Type := { authUrl : jsstring; code : jsstring }.

(** The agent, as the commands see it: each member gives the settled
    result of the call.  A promise bound to an abort signal that fires
    rejects with an error named [AbortError].  Each run of
    [openAuthPage] reads the status at most once, so one value stands for
    what [getStatus] returns. *)
Record Agent : Type := {
  requestAuthUrl : completion (option AuthUrl);
  waitForAuthToken : jsstring -> completion unit;
  getStatus : jsstring;
  agent_generateCommitMessage : list jsstring -> completion jsstring
}.

(** The editor host and the modules of the platform: [path.basename],
    [String.prototype.localeCompare], the choice the user makes in the
    quick pick ([None]: dismissed), [Uri.joinPath] and
    [workspace.fs.stat].  [fs_stat] tells how a request settles and
    [stat_settles] when it does. *)
Record Host : Type := {
  path_basename : jsstring -> jsstring;
  localeCompare : jsstring -> jsstring -> Z;
  showQuickPick : list QuickPickItem -> option QuickPickItem;
  Uri_joinPath : Uri -> jsstring -> Uri;
  fs_stat : Uri -> completion FileStat;
  stat_settles : Uri -> nat
}.

(** A promise: how it settles and the moment at which it does.  Of two
    promises with the same moment the one that stands first in its array
    settles first. *)
Record promise (A : Type) : Type := {
  settles_at : nat;
  outcome : completion A
}.
Arguments settles_at {A} p.
Arguments outcome {A} p.

(** The optional argument of [openAuthPage]; a member is [true] when the
    caller supplied that hook. *)
Record Callbacks : Type := { onAuthStart : bool; onAuthEnd : bool }.

(** ** Observable events and the state *)

Inductive event : Type :=
| EvOnAuthStart
| EvOnAuthEnd
| EvProgressReport (message : jsstring)
| EvRequestAuthUrl
| EvOpenExternal (url : jsstring)
| EvWaitForAuthToken (code : jsstring)
| EvGetStatus
| EvNotify (n : notification)
| EvShowInformationMessage (message : jsstring)
| EvShowQuickPick (items : list QuickPickItem)
| EvRepoDiff (root : Uri) (cached : bool)
| EvExecuteCommand (command : jsstring)
| EvStat (uri : Uri)
| EvGenerateCommitMessage (diffs : list jsstring)
| EvSetInputBox (root : Uri) (message : jsstring).

(** [inputBox] maps the root path of a repository to the value of its
    commit input box. *)
Record world : Type := {
  log : list event;
  inputBox : jsstring -> jsstring
}.

Definition M (A : Type) : Type := world -> completion A * world.

Definition ret {A : Type} (a : A) : M A := fun w => (Normal a, w).

Definition bind {A B : Type} (m : M A) (k : A -> M B) : M B :=
  fun w =>
    match m w with
    | (Normal a, w') => k a w'
    | (Abrupt e, w') => (Abrupt e, w')
    end.

Declare Scope js_scope.
Delimit Scope js_scope with js.
Notation "x <- c1 ;; c2" := (bind c1 (fun x => c2))
  (at level 61, c1 at next level, right associativity) : js_scope.
Notation "c1 ;; c2" := (bind c1 (fun _ => c2))
  (at level 61, right associativity) : js_scope.
Local Open Scope js_scope.

Definition throw {A : Type} (e : thrown) : M A := fun w => (Abrupt e, w).

(** [await p] for a promise that settles as [p]. *)
Definition await {A : Type} (p : completion A) : M A := fun w => (p, w).

Definition emit (e : event) : M unit :=
  fun w => (Normal tt, {| log := log w ++ [e]; inputBox := inputBox w |}).

(** [try { body } catch (error) { handler }] *)
Definition try_catch {A : Type} (body : M A) (handler : thrown -> M A)
  : M A :=
  fun w =>
    match body w with
    | (Normal a, w') => (Normal a, w')
    | (Abrupt e, w') => handler e w'
    end.

(** [try { body } finally { fin }]: [fin] runs however [body] ends; an
    abrupt end of [fin] replaces the completion of [body]. *)
Definition try_finally {A : Type} (body : M A) (fin : M unit) : M A :=
  fun w =>
    match body w with
    | (c, w') =>
        match fin w' with
        | (Normal _, w'') => (c, w'')
        | (Abrupt e, w'') => (Abrupt e, w'')
        end
    end.

(** [error.name] *)
Definition get_name (error : thrown) : M jsstring :=
  match error with
  | ThrownNullish => throw (ThrownError (lit "TypeError"))
  | ThrownError name => ret name
  end.

(** [assert(b)] of the [assert] module. *)
Definition assert (b : bool) : M unit :=
  if b then ret tt else throw (ThrownError (lit "AssertionError")).

Definition notify (n : notification) : M unit := emit (EvNotify n).

(** [callbacks?.hook?.()] *)
Definition call_hook (callbacks : option Callbacks)
  (hook : Callbacks -> bool) (e : event) : M unit :=
  match callbacks with
  | Some c => if hook c then emit e else ret tt
  | None => ret tt
  end.

Definition agent_getStatus (ag : Agent) : M jsstring :=
  emit EvGetStatus ;; ret (getStatus ag).

(** [repo.inputBox.value = message] *)
Definition set_inputBox (repo : Repository) (message : jsstring) : M unit :=
  fun w =>
    (Normal tt,
     {| log := log w ++ [EvSetInputBox (rootUri repo) message];
        inputBox := fun root =>
          if jsstring_eq_dec root (fsPath (rootUri repo)) then message
          else inputBox w root |}).

(** ** [openAuthPage] (lines 148-189)

    The body of the task handed to [window.withProgress].  The abort
    controller forwards the cancellation of the task to the signal that
    both agent calls receive; its effect is the [AbortError] rejection of
    the pending call. *)
Definition openAuthPage (ag : Agent) (callbacks : option Callbacks)
  : M unit :=
  try_finally
    (try_catch
       (call_hook callbacks onAuthStart EvOnAuthStart ;;
        emit (EvProgressReport (lit "Generating authorization url...")) ;;
        url <- (emit EvRequestAuthUrl ;; await (requestAuthUrl ag)) ;;
        match url with
        | Some u =>
            emit (EvOpenExternal (authUrl u)) ;;
            emit (EvProgressReport
                    (lit "Waiting for authorization from browser...")) ;;
            emit (EvWaitForAuthToken (code u)) ;;
            await (waitForAuthToken ag (code u)) ;;
            status <- agent_getStatus ag ;;
            assert (eqb status (lit "ready")) ;;
            notify AuthSuccess
        | None =>
            status <- agent_getStatus ag ;;
            if eqb status (lit "ready")
            then notify StartAuthButAlreadyAuthorized
            else notify AuthFailed
        end)
       (fun error =>
          name <- get_name error ;;
          if eqb name (lit "AbortError") then ret tt
          else notify AuthFailed))
    (call_hook callbacks onAuthEnd EvOnAuthEnd).

(** ** [generateCommitMessage] (lines 372-457) *)

(** The object built for each repository (lines 387-397). *)
Definition toItem (h : Host) (repo : Repository) : QuickPickItem :=
  let repoRoot := fsPath (rootUri repo) in
  {| label := path_basename h repoRoot;
     detail := repoRoot;
     picked := ui_selected repo;
     value := repo |}.

(** The comparison function handed to [sort] (lines 398-406). *)
Definition compareItems (h : Host) (a b : QuickPickItem) : Z :=
  if startsWith (detail a) (detail b) then 1
  else if startsWith (detail b) (detail a) then -1
  else localeCompare h (label a) (label b).

Definition quickPickItems (h : Host) (repos : list Repository)
  : list QuickPickItem :=
  sort (compareItems h) (List.map (toItem h) repos).

(** Lines 381-410: one repository is taken as it is, several are offered
    in a quick pick. *)
Definition selectRepo (h : Host) (repos : list Repository)
  : M (option Repository) :=
  if (List.length repos =? 1)%nat then ret (nth_error repos 0)
  else
    let items := quickPickItems h repos in
    emit (EvShowQuickPick items) ;;
    ret (option_map value (showQuickPick h items)).

(** Lines 416-420: the trimmed cached diff, or else the trimmed uncached
    one. *)
Definition getDiff (repo : Repository) : M jsstring :=
  cached <- (emit (EvRepoDiff (rootUri repo) true) ;;
             await (repo_diff repo true)) ;;
  let diff := trim cached in
  if (List.length diff <? 1)%nat then
    uncached <- (emit (EvRepoDiff (rootUri repo) false) ;;
                 await (repo_diff repo false)) ;;
    ret (trim uncached)
  else ret diff.

Record DiffWithPriority : Type := { diff : jsstring; priority : Z }.

(** The asynchronous arrow function of lines 441-449.  It runs up to its
    first [await] when [map] calls it, so the [stat] request is issued at
    once; the value is the promise it returns, which settles when the
    request does, and which is fulfilled from the start when there is no
    request. *)
Definition lookup (h : Host) (repo : Repository) (item : jsstring)
  : M (promise DiffWithPriority) :=
  let filepath := exec_header item in
  priority <-
    match filepath with
    | Some f =>
        if truthy f then
          let uri := Uri_joinPath h (rootUri repo) f in
          emit (EvStat uri) ;;
          ret {| settles_at := stat_settles h uri;
                 outcome := completion_map mtime (fs_stat h uri) |}
        else ret {| settles_at := 0; outcome := Normal MAX_SAFE_INTEGER |}
    | None => ret {| settles_at := 0; outcome := Normal MAX_SAFE_INTEGER |}
    end ;;
  ret {| settles_at := settles_at priority;
         outcome :=
           completion_map
             (fun p => {| diff := item; priority := p |})
             (outcome priority) |}.

(** [items.map(f)] for an asynchronous [f]: every call is made, in order,
    and the promises are collected. *)
Fixpoint map_async {A B : Type} (f : A -> M (promise B)) (l : list A)
  : M (list (promise B)) :=
  match l with
  | [] => ret []
  | x :: l' =>
      p <- f x ;;
      ps <- map_async f l' ;;
      ret (p :: ps)
  end.

(** The rejection that settles first, with its moment: the rejected
    promise with the least moment, and among those with the same moment
    the one that stands first. *)
Fixpoint first_rejection {A : Type} (ps : list (promise A))
  : option (nat * thrown) :=
  match ps with
  | [] => None
  | p :: ps' =>
      match outcome p with
      | Normal _ => first_rejection ps'
      | Abrupt e =>
          match first_rejection ps' with
          | Some (t, e') =>
              if (settles_at p <=? t)%nat then Some (settles_at p, e)
              else Some (t, e')
          | None => Some (settles_at p, e)
          end
      end
  end.

(** The values of the fulfilled promises, in the order of the array. *)
Definition fulfilled_values {A : Type} (ps : list (promise A)) : list A :=
  flat_map
    (fun p => match outcome p with Normal a => [a] | Abrupt _ => [] end)
    ps.

(** [Promise.all(ps)]: fulfilled with all the values, in the order of the
    array, when every promise is fulfilled; rejected with the reason of
    the promise that is rejected first. *)
Definition Promise_all {A : Type} (ps : list (promise A))
  : completion (list A) :=
  match first_rejection ps with
  | Some (_, e) => Abrupt e
  | None => Normal (fulfilled_values ps)
  end.

(** The comparison function of line 451. *)
Definition comparePriority (a b : DiffWithPriority) : Z :=
  priority a - priority b.

(** Line 451: sort by priority, then keep the text. *)
Definition sortDiffs (diffsWithPriority : list DiffWithPriority)
  : list jsstring :=
  List.map diff (sort comparePriority diffsWithPriority).

(** Lines 440-451. *)
Definition prioritize (h : Host) (repo : Repository) (d : jsstring)
  : M (list jsstring) :=
  promises <- map_async (lookup h repo) (split_diff d) ;;
  diffsWithPriority <- await (Promise_all promises) ;;
  ret (sortDiffs diffsWithPriority).

(** Lines 433-454: the task handed to [window.withProgress]. *)
Definition generateFromDiff (h : Host) (ag : Agent) (repo : Repository)
  (d : jsstring) : M unit :=
  diffs <- prioritize h repo d ;;
  message <- (emit (EvGenerateCommitMessage diffs) ;;
              await (agent_generateCommitMessage ag diffs)) ;;
  set_inputBox repo message.

(** Lines 414-455, for the repository that was selected. *)
Definition generateForRepo (h : Host) (ag : Agent) (repo : Repository)
  : M unit :=
  d <- getDiff repo ;;
  if (List.length d <? 1)%nat then ret tt
  else
    emit (EvExecuteCommand (lit "workbench.view.scm")) ;;
    generateFromDiff h ag repo d.

(** The command.  [gitApi] is [None] when the git extension is missing
    ([gitApi?.repositories ?? []]).  The progress task is not awaited by
    the command; the model runs it in sequence, and the completion of the
    task is the completion of the whole. *)
Definition generateCommitMessage (h : Host) (ag : Agent)
  (gitApi : option (list Repository)) : M unit :=
  let repos := match gitApi with Some r => r | None => [] end in
  if (List.length repos <? 1)%nat then
    emit (EvShowInformationMessage (lit "No Git repositories found."))
  else
    selectedRepo <- selectRepo h repos ;;
    match selectedRepo with
    | None => ret tt
    | Some repo => generateForRepo h ag repo
    end.

(** ** Reading the outcome of a run *)

Definition new_world (boxes : jsstring -> jsstring) : world :=
  {| log := []; inputBox := boxes |}.

Definition is_onAuthStart (e : event) : bool :=
  match e with EvOnAuthStart => true | _ => false end.

Definition is_onAuthEnd (e : event) : bool :=
  match e with EvOnAuthEnd => true | _ => false end.

Definition is_openExternal (e : event) : bool :=
  match e with EvOpenExternal _ => true | _ => false end.

Definition is_waitForAuthToken (e : event) : bool :=
  match e with EvWaitForAuthToken _ => true | _ => false end.

Definition is_generateCommitMessage (e : event) : bool :=
  match e with EvGenerateCommitMessage _ => true | _ => false end.

Definition is_setInputBox (e : event) : bool :=
  match e with EvSetInputBox _ _ => true | _ => false end.

Definition is_uncachedDiff (e : event) : bool :=
  match e with EvRepoDiff _ false => true | _ => false end.

Definition count (p : event -> bool) (l : list event) : nat :=
  List.length (filter p l).

Definition notifications_shown (l : list event) : list notification :=
  flat_map (fun e => match e with EvNotify n => [n] | _ => [] end) l.

(** The terminal states of the authorization flow, read off a finished
    run: the notification that was shown tells a fresh success from an
    already active session and from a failure; a run that returns without
    any notification was cancelled. *)
Inductive terminal : Type :=
| Succeeded
| SucceededAlreadyActive
| Failed
| Cancelled.

Definition auth_outcome (r : completion unit * world) : option terminal :=
  match fst r, notifications_shown (log (snd r)) with
  | Normal _, [] => Some Cancelled
  | Normal _, [AuthSuccess] => Some Succeeded
  | Normal _, [StartAuthButAlreadyAuthorized] => Some SucceededAlreadyActive
  | Normal _, [AuthFailed] => Some Failed
  | _, _ => None
  end.

(** The events of an optional hook. *)
Definition hook_events (callbacks : option Callbacks)
  (hook : Callbacks -> bool) (e : event) : list event :=
  match callbacks with
  | Some c => if hook c then [e] else []
  | None => []
  end.

(** The two calls to the agent that are bound to the abort signal. *)
Definition is_bound_call (e : event) : bool :=
  match e with
  | EvRequestAuthUrl | EvWaitForAuthToken _ => true
  | _ => false
  end.

(** An error of the cancellation kind. *)
Definition isAbortError (e : thrown) : bool :=
  match e with
  | ThrownError name => eqb name (lit "AbortError")
  | ThrownNullish => false
  end.

(** The abort signal fired while [requestAuthUrl] or [waitForAuthToken]
    was pending. *)
Definition aborted_while_pending (ag : Agent) : Prop :=
  (exists e, requestAuthUrl ag = Abrupt e /\ isAbortError e = true) \/
  (exists u e, requestAuthUrl ag = Normal (Some u) /\
               waitForAuthToken ag (code u) = Abrupt e /\
               isAbortError e = true).

(** A string made of the code units that [trim] removes. *)
Definition whitespace_only (s : jsstring) : Prop :=
  forallb isTrimmed s = true.

(** Ascending order by a key, and the test for one key. *)
Definition le_key {A : Type} (key : A -> Z) (a b : A) : Prop :=
  key a <= key b.

Definition has_key {A : Type} (key : A -> Z) (k : Z) (a : A) : bool :=
  key a =? k.

(** [x] comes before [y] in the list. *)
Definition listed_before {A : Type} (x y : A) (l : list A) : Prop :=
  exists l1 l2 l3, l = l1 ++ x :: l2 ++ y :: l3.

(** The file path of a chunk: capture group 1 of the header pattern,
    when it is a non-empty string. *)
Definition filepath_of (item : jsstring) : option jsstring :=
  match exec_header item with
  | Some f => if truthy f then Some f else None
  | None => None
  end.

(** The state in which the promise returned by [lookup] settles. *)
Definition settled (h : Host) (repo : Repository) (item : jsstring)
  : completion DiffWithPriority :=
  match filepath_of item with
  | Some f =>
      completion_map
        (fun st => {| diff := item; priority := mtime st |})
        (fs_stat h (Uri_joinPath h (rootUri repo) f))
  | None => Normal {| diff := item; priority := MAX_SAFE_INTEGER |}
  end.

(** The moment at which it settles. *)
Definition settle_time (h : Host) (repo : Repository) (item : jsstring)
  : nat :=
  match filepath_of item with
  | Some f => stat_settles h (Uri_joinPath h (rootUri repo) f)
  | None => 0
  end.

Definition settled_promise (h : Host) (repo : Repository)
  (item : jsstring) : promise DiffWithPriority :=
  {| settles_at := settle_time h repo item;
     outcome := settled h repo item |}.

(** The key by which a chunk is sorted: the modification time of its
    file, or the sentinel when the chunk names no path. *)
Definition key_of (h : Host) (repo : Repository) (item : jsstring)
  : completion Z :=
  match filepath_of item with
  | Some f =>
      completion_map mtime (fs_stat h (Uri_joinPath h (rootUri repo) f))
  | None => Normal MAX_SAFE_INTEGER
  end.

(** [entries] holds the chunks, in their order, each with its key. *)
Definition keyed (h : Host) (repo : Repository) (items : list jsstring)
  (entries : list DiffWithPriority) : Prop :=
  Forall2
    (fun item e => diff e = item /\ key_of h repo item = Normal (priority e))
    items entries.

(** The [stat] requests that the chunks of a diff give rise to. *)
Definition stat_requests (h : Host) (repo : Repository)
  (items : list jsstring) : list event :=
  flat_map
    (fun item =>
       match filepath_of item with
       | Some f => [EvStat (Uri_joinPath h (rootUri repo) f)]
       | None => []
       end)
    items.

(** The [stat] request of a chunk is rejected. *)
Definition stat_fails (h : Host) (repo : Repository) (item : jsstring)
  : Prop :=
  exists f e,
    filepath_of item = Some f /\
    fs_stat h (Uri_joinPath h (rootUri repo) f) = Abrupt e.

Definition append_log (w : world) (es : list event) : world :=
  {| log := log w ++ es; inputBox := inputBox w |}.

(** ** A small host, agent and repository to run the model on *)

Module Demo.

(** The last segment of a path written with [/]. *)
Fixpoint last_segment (acc s : jsstring) : jsstring :=
  match s with
  | [] => acc
  | c :: s' =>
      if N.eqb c 47 then
        match s' with
        | [] => acc
        | _ :: _ => last_segment [] s'
        end
      else last_segment (acc ++ [c]) s'
  end.

(** Comparison by code units. *)
Fixpoint compare_units (s t : jsstring) : Z :=
  match s, t with
  | [], [] => 0
  | [], _ :: _ => -1
  | _ :: _, [] => 1
  | c :: s', d :: t' =>
      if N.ltb c d then -1
      else if N.ltb d c then 1
      else compare_units s' t'
  end.

(** Every file has the modification time 1700000000000, except those
    whose path ends in [missing], for which [stat] is rejected. *)
Definition stat (u : Uri) : completion FileStat :=
  if eqb (last_segment [] (fsPath u)) (lit "missing")
  then Abrupt (ThrownError (lit "FileNotFound"))
  else Normal {| mtime := 1700000000000 |}.

Definition host : Host :=
  {| path_basename := last_segment [];
     localeCompare := compare_units;
     showQuickPick := fun items => hd_error items;
     Uri_joinPath := fun root f =>
       {| fsPath := fsPath root ++ lit "/" ++ f |};
     fs_stat := stat;
     stat_settles := fun _ => 1%nat |}.

Definition repo_at (root : jsstring) (d : bool -> completion jsstring)
  : Repository :=
  {| rootUri := {| fsPath := root |}; ui_selected := false; repo_diff := d |}.

Definition clean_repo : Repository :=
  repo_at (lit "/repo") (fun _ => Normal []).

Definition three_repos : list Repository :=
  [repo_at (lit "/repo/a") (fun _ => Normal []);
   repo_at (lit "/m") (fun _ => Normal []);
   repo_at (lit "/repo") (fun _ => Normal [])].

(** An agent whose user cancels while the authorization URL is
    requested. *)
Definition cancelled_agent : Agent :=
  {| requestAuthUrl := Abrupt (ThrownError (lit "AbortError"));
     waitForAuthToken := fun _ => Normal tt;
     getStatus := lit "unauthorized";
     agent_generateCommitMessage := fun _ => Normal (lit "update") |}.

(** An agent that is authorized already. *)
Definition ready_agent : Agent :=
  {| requestAuthUrl := Normal None;
     waitForAuthToken := fun _ => Normal tt;
     getStatus := lit "ready";
     agent_generateCommitMessage := fun _ => Normal (lit "update") |}.

Definition both_hooks : Callbacks :=
  {| onAuthStart := true; onAuthEnd := true |}.

Definition no_boxes : jsstring -> jsstring := fun _ => [].

Definition fresh : world := new_world no_boxes.

Definition quiet : bool -> completion jsstring := fun _ => Normal [].

(** Two files; the header of the second names a file that is gone. *)
Definition two_files : jsstring :=
  lit "diff --git a/kept b/kept" ++ [LF] ++ lit "+1" ++ [LF] ++
  lit "diff --git a/missing b/missing" ++ [LF] ++ lit "-2".

(** Text without a file header. *)
Definition no_header : jsstring := lit "x".

(** A staged diff of white space only, and an unstaged diff with white
    space around it. *)
Definition blank : jsstring := [32; 10; 9]%N.

Definition padded : jsstring :=
  [32]%N ++ lit "diff --git a/kept b/kept" ++ [10; 10]%N.

Definition unstaged_repo : Repository :=
  repo_at (lit "/repo")
    (fun cached => if cached then Normal blank else Normal padded).

(** Two old files and two chunks without a path. *)
Definition entries : list DiffWithPriority :=
  [ {| diff := lit "c"; priority := MAX_SAFE_INTEGER |};
    {| diff := lit "a"; priority := 5 |};
    {| diff := lit "d"; priority := MAX_SAFE_INTEGER |};
    {| diff := lit "b"; priority := 5 |} ].

End Demo.

(** ** Further commands of the file *)

(** [s.includes(p)] *)
Fixpoint includes (s p : jsstring) : bool :=
  startsWith s p ||
  match s with
  | [] => false
  | _ :: s' => includes s' p
  end.

(** [s.split("\n")]: as [split_scan], with the line feed alone as the
    separator. *)
Fixpoint split_lines_scan (cur : jsstring) (s : jsstring) : list jsstring :=
  match s with
  | [] => [cur]
  | c :: rest =>
      if N.eqb c LF then cur :: split_lines_scan [] rest
      else split_lines_scan (cur ++ [c]) rest
  end.

Definition split_lines (s : jsstring) : list jsstring :=
  split_lines_scan [] s.

(** [s.replace(pattern, "")] for a string pattern: the first occurrence
    from the left is removed; the empty pattern occurs at index 0. *)
Fixpoint replace_first (s pattern : jsstring) : jsstring :=
  if startsWith s pattern then skipn (List.length pattern) s
  else
    match s with
    | [] => []
    | c :: s' => c :: replace_first s' pattern
    end.

(** *** [toggleInlineCompletionTriggerMode] (lines 32-47)

    [current] is what [configuration.get] returns for the trigger mode,
    with [automatic] as its default; the result is the value handed to
    [configuration.update]. *)
Definition toggleInlineCompletionTriggerMode (value : option jsstring)
  (current : jsstring) : jsstring :=
  let target := match value with Some v => v | None => [] end in
  if truthy target then target
  else if eqb current (lit "automatic") then lit "manual"
  else lit "automatic".

(** *** [setApiToken] (lines 78-103) *)

(** The token kept in the global state of the extension and the token
    set in the configuration of the agent. *)
Record TokenStores : Type := {
  globalState_token : option jsstring;
  agent_token : option jsstring
}.

(** The [value] of the input box, for the token that the agent is
    configured with. *)
Definition tokenPromptValue (configured : jsstring) : option jsstring :=
  let currentToken := trim configured in
  if (0 <? List.length currentToken)%nat then Some currentToken else None.

(** The handler of the input box; [None] is a dismissed box. *)
Definition setApiToken (token : option jsstring) (st : TokenStores)
  : TokenStores :=
  match token with
  | None => st
  | Some t =>
      if (0 <? List.length t)%nat then
        {| globalState_token := Some t; agent_token := Some t |}
      else {| globalState_token := None; agent_token := None |}
  end.

(** *** [openOnlineHelp] (lines 243-291) *)

Definition onlineHelpLabels : list jsstring :=
  [lit "Online Documentation"; lit "Model Registry";
   lit "Tabby Slack Community"; lit "Tabby GitHub Repository"].

(** The [switch] on the label of the selection: the URLs that are
    opened. *)
Definition openOnlineHelp (selection : option jsstring) : list jsstring :=
  match selection with
  | None => []
  | Some l =>
      if eqb l (lit "Online Documentation")
      then [lit "https://tabby.tabbyml.com/"]
      else if eqb l (lit "Model Registry")
      then [lit "https://tabby.tabbyml.com/docs/models/"]
      else if eqb l (lit "Tabby Slack Community")
      then [lit "https://links.tabbyml.com/join-slack-extensions/"]
      else if eqb l (lit "Tabby GitHub Repository")
      then [lit "https://github.com/tabbyml/tabby"]
      else []
  end.

(** *** [muteNotifications] and [resetMutedNotifications] (lines 293-321)

    The state is what the global state holds under
    [notifications.muted]; [None] is a key that was never written, which
    reads as the empty array. *)
Definition muted_get (stored : option (list jsstring)) : list jsstring :=
  match stored with Some l => l | None => [] end.

Definition muteNotifications (type : jsstring)
  (stored : option (list jsstring)) : option (list jsstring) :=
  Some (muted_get stored ++ [type]).

Definition resetMutedNotifications (type : option jsstring)
  (stored : option (list jsstring)) : option (list jsstring) :=
  let all := muted_get stored in
  match type with
  | Some t =>
      if truthy t then Some (filter (fun x => negb (eqb x t)) all)
      else Some []
  | None => Some []
  end.

(** *** [alignIndent] (lines 323-338) *)

(** The length of the match of the pattern for leading [\s]: the run of
    white space and line terminators in front of a line. *)
Fixpoint indent_of (line : jsstring) : nat :=
  match line with
  | [] => 0
  | c :: line' => if isTrimmed c then S (indent_of line') else 0
  end.

(** [Math.min(min, indent)], where [None] is [Infinity]. *)
Definition min_indent (min : option nat) (indent : nat) : option nat :=
  match min with
  | None => Some indent
  | Some m => Some (Nat.min m indent)
  end.

(** The [reduce] over the lines behind the first one. *)
Definition minIndent (subsequentLines : list jsstring) : option nat :=
  fold_left
    (fun min line =>
       if truthy (trim line) then min_indent min (indent_of line) else min)
    subsequentLines None.

(** [line.slice(minIndent)] *)
Definition slice_from (min : option nat) (line : jsstring) : jsstring :=
  match min with
  | Some m => skipn m line
  | None => []
  end.

Definition alignedLines (lines : list jsstring) : list jsstring :=
  trim (hd [] lines)
  :: List.map (slice_from (minIndent (tl lines))) (tl lines).

Definition alignIndent (text : jsstring) : jsstring :=
  join [LF] (alignedLines (split_lines text)).

(** *** [explainCodeBlock] (lines 340-370)

    The members [kind] and [git_url] of the context are constants and
    are left out. *)

Record Editor : Type := {
  selectedText : jsstring;
  fileName : jsstring;
  selection_start_line : Z;
  selection_end_line : Z
}.

Record FileContext : Type := {
  content : jsstring;
  range_start : Z;
  range_end : Z;
  filepath : jsstring
}.

Inductive chat_action : Type :=
| FocusChatView
| SendMessage (message : jsstring) (selectContext : FileContext)
| ShowNoActiveEditor.

(** The path that is reported for a file.  [workspaceFolder] is the path
    of the first workspace folder, if there is one. *)
Definition relativeFilepath (workspaceFolder : option jsstring)
  (file : jsstring) : jsstring :=
  let folder := match workspaceFolder with Some f => f | None => [] end in
  let filePath := replace_first file folder in
  if startsWith filePath (lit "/") then skipn 1 filePath else filePath.

Definition explainCodeBlock (activeTextEditor : option Editor)
  (workspaceFolder : option jsstring) : list chat_action :=
  match activeTextEditor with
  | Some editor =>
      [FocusChatView;
       SendMessage (lit "Explain the selected code:")
         {| content := alignIndent (selectedText editor);
            range_start := selection_start_line editor + 1;
            range_end := selection_end_line editor + 1;
            filepath := relativeFilepath workspaceFolder (fileName editor) |}]
  | None => [ShowNoActiveEditor]
  end.

(** A string without a line feed. *)
Definition one_line (l : jsstring) : Prop :=
  forallb (fun c => negb (N.eqb c LF)) l = true.

(** ** Further inputs to run the model on *)

Module Sample.

Definition indented : jsstring :=
  lit "  if (x) {" ++ [LF] ++ lit "      y();" ++ [LF] ++ lit "    }".

Definition header_line : jsstring :=
  lit "diff --git a/src/x.ts b/src/x.ts" ++ [LF] ++ lit "index 1..2".

Definition url : AuthUrl := {| authUrl := lit "https://x"; code := lit "c" |}.

(** The agent issues a URL, the token arrives, the status is not
    [ready]. *)
Definition unready_agent : Agent :=
  {| requestAuthUrl := Normal (Some url);
     waitForAuthToken := fun _ => Normal tt;
     getStatus := lit "unauthorized";
     agent_generateCommitMessage := fun _ => Normal (lit "update") |}.

(** The agent whose calls are rejected with a network error. *)
Definition failing_agent : Agent :=
  {| requestAuthUrl := Abrupt (ThrownError (lit "HttpError"));
     waitForAuthToken := fun _ => Normal tt;
     getStatus := lit "unauthorized";
     agent_generateCommitMessage :=
       fun _ => Abrupt (ThrownError (lit "HttpError")) |}.

(** The agent whose request is rejected with [undefined]. *)
Definition nullish_agent : Agent :=
  {| requestAuthUrl := Abrupt ThrownNullish;
     waitForAuthToken := fun _ => Normal tt;
     getStatus := lit "unauthorized";
     agent_generateCommitMessage := fun _ => Normal (lit "update") |}.


(** A host on which two files are gone: the request for [slow] is
    rejected at moment 2 and the request for [fast] at moment 1. *)
Definition racing_host : Host :=
  {| path_basename := Demo.last_segment [];
     localeCompare := Demo.compare_units;
     showQuickPick := fun items => hd_error items;
     Uri_joinPath := fun root f =>
       {| fsPath := fsPath root ++ lit "/" ++ f |};
     fs_stat := fun u =>
       Abrupt (ThrownError (Demo.last_segment [] (fsPath u)));
     stat_settles := fun u =>
       if eqb (Demo.last_segment [] (fsPath u)) (lit "slow")
       then 2%nat else 1%nat |}.

Definition racing_diff : jsstring :=
  lit "diff --git a/slow b/slow" ++ [LF] ++ lit "diff --git a/fast b/fast".

(** A host on which every file was modified at moment 2^53. *)
Definition late_host : Host :=
  {| path_basename := Demo.last_segment [];
     localeCompare := Demo.compare_units;
     showQuickPick := fun items => hd_error items;
     Uri_joinPath := fun root f =>
       {| fsPath := fsPath root ++ lit "/" ++ f |};
     fs_stat := fun _ => Normal {| mtime := 2 ^ 53 |};
     stat_settles := fun _ => 1%nat |}.

(** A chunk with a header in front of a chunk without one. *)
Definition late_diff : jsstring :=
  lit "diff --git a/f b/f" ++ [LF] ++ lit "diff -r".

(** Two files of the same age around a chunk without a header. *)
Definition mixed_diff : jsstring :=
  lit "diff --git a/kept b/kept" ++ [LF] ++ lit "diff -r" ++ [LF] ++
  lit "diff --git a/x b/x".

Definition mixed_entries : list DiffWithPriority :=
  [ {| diff := lit "diff --git a/kept b/kept"; priority := 1700000000000 |};
    {| diff := lit "diff -r"; priority := MAX_SAFE_INTEGER |};
    {| diff := lit "diff --git a/x b/x"; priority := 1700000000000 |} ].

(** A repository whose diff cannot be read. *)
Definition broken_repo : Repository :=
  Demo.repo_at (lit "/broken")
    (fun _ => Abrupt (ThrownError (lit "GitError"))).

End Sample.

(** * Properties *)

(** ** Strings *)

Lemma eqb_eq (s t : jsstring) : eqb s t = true <-> s = t.
Proof.
  revert t; induction s as [|c s IH]; intros [|d t]; simpl;
    try (split; [discriminate | congruence]); try tauto.
  rewrite andb_true_iff, N.eqb_eq, IH.
  split; [intros [-> ->]; reflexivity | intros H; inversion H; auto].
Qed.

Lemma eqb_neq (s t : jsstring) : eqb s t = false <-> s <> t.
Proof.
  rewrite <- eqb_eq. destruct (eqb s t); split; congruence.
Qed.

Lemma trimStart_nil_iff (s : jsstring) :
  trimStart s = [] <-> forallb isTrimmed s = true.
Proof.
  induction s as [|c s IH]; simpl; [tauto|].
  destruct (isTrimmed c); simpl; [exact IH|].
  split; discriminate.
Qed.

Lemma trimStart_head (s : jsstring) :
  forallb isTrimmed (trimStart s) = true -> trimStart s = [].
Proof.
  induction s as [|c s IH]; simpl; [reflexivity|].
  destruct (isTrimmed c) eqn:E; [exact IH|].
  simpl. rewrite E. discriminate.
Qed.

Lemma forallb_rev {A : Type} (p : A -> bool) (l : list A) :
  forallb p (rev l) = forallb p l.
Proof.
  induction l as [|x l IH]; simpl; [reflexivity|].
  rewrite forallb_app, IH. simpl. rewrite andb_true_r. apply andb_comm.
Qed.

(** [trim] yields the empty string exactly on the strings that consist of
    white space and line terminators. *)
Lemma trim_nil_iff (s : jsstring) : trim s = [] <-> whitespace_only s.
Proof.
  unfold trim, trimEnd, whitespace_only. split.
  - intros H.
    assert (H1 : trimStart (rev (trimStart s)) = []).
    { rewrite <- (rev_involutive (trimStart (rev (trimStart s)))), H.
      reflexivity. }
    apply trimStart_nil_iff in H1. rewrite forallb_rev in H1.
    apply trimStart_head in H1. apply trimStart_nil_iff. exact H1.
  - intros H. apply trimStart_nil_iff in H. rewrite H. reflexivity.
Qed.

Lemma length_lt_1 {A : Type} (l : list A) :
  (List.length l <? 1)%nat = true <-> l = [].
Proof.
  destruct l; simpl; split; try reflexivity; try discriminate.
Qed.

Lemma length_lt_1_false {A : Type} (l : list A) :
  (List.length l <? 1)%nat = false <-> l <> [].
Proof.
  destruct l; simpl; split; try congruence; try discriminate.
  intros _; reflexivity.
Qed.

(** ** Splitting a diff *)

Lemma split_scan_not_nil (s cur : jsstring) : split_scan cur s <> [].
Proof.
  revert cur; induction s as [|c s IH]; intros cur; simpl.
  - discriminate.
  - destruct (isBoundary c s); [discriminate | apply IH].
Qed.

Lemma join_cons (sep x : jsstring) (l : list jsstring) :
  l <> [] -> join sep (x :: l) = x ++ sep ++ join sep l.
Proof.
  destruct l; [congruence | reflexivity].
Qed.

Lemma isBoundary_LF (c : char) (rest : jsstring) :
  isBoundary c rest = true -> c = LF.
Proof.
  unfold isBoundary. intros H. apply andb_true_iff in H.
  apply N.eqb_eq. tauto.
Qed.

Lemma join_split_scan (s cur : jsstring) :
  join [LF] (split_scan cur s) = cur ++ s.
Proof.
  revert cur; induction s as [|c s IH]; intros cur; simpl.
  - rewrite app_nil_r. reflexivity.
  - destruct (isBoundary c s) eqn:E.
    + rewrite join_cons by apply split_scan_not_nil.
      rewrite IH. apply isBoundary_LF in E. subst c. reflexivity.
    + rewrite IH, <- app_assoc. reflexivity.
Qed.

Lemma split_scan_no_boundary (s cur : jsstring) :
  count_boundaries s = 0%nat -> split_scan cur s = [cur ++ s].
Proof.
  revert cur; induction s as [|c s IH]; intros cur; simpl.
  - rewrite app_nil_r. reflexivity.
  - destruct (isBoundary c s); [discriminate|].
    intros H. rewrite IH by exact H. rewrite <- app_assoc. reflexivity.
Qed.

Lemma length_split_scan (s cur : jsstring) :
  List.length (split_scan cur s) = S (count_boundaries s).
Proof.
  revert cur; induction s as [|c s IH]; intros cur; simpl.
  - reflexivity.
  - destruct (isBoundary c s); simpl; rewrite IH; reflexivity.
Qed.

(** C1, as stated, fails: the line feed in front of each file boundary is
    consumed by the split, so the plain concatenation of the chunks of a
    two-file diff is one code unit short of the diff. *)
Lemma split_concat_loses_line_feed :
  split_diff Demo.two_files =
    [lit "diff --git a/kept b/kept" ++ [LF] ++ lit "+1";
     lit "diff --git a/missing b/missing" ++ [LF] ++ lit "-2"] /\
  List.concat (split_diff Demo.two_files) <> Demo.two_files /\
  S (List.length (List.concat (split_diff Demo.two_files))) =
    List.length Demo.two_files.
Proof.
  repeat split; try reflexivity.
  vm_compute. discriminate.
Qed.

(** C1, amended: for every diff [D], joining the chunks of the split in
    their order, with one line feed between neighbours, gives [D] back:
    nothing but the separating line feeds is dropped and nothing is
    duplicated; there is one chunk more than there are boundaries. *)
Theorem split_join_roundtrip (D : jsstring) :
  join [LF] (split_diff D) = D /\
  List.length (split_diff D) = S (count_boundaries D).
Proof.
  split.
  - apply (join_split_scan D []).
  - apply length_split_scan.
Qed.

(** ** The stable sort *)

Section SortFacts.
Context {A : Type} (comparefn : A -> A -> Z).

Lemma insert_perm (x : A) (l : list A) :
  Permutation (x :: l) (insert comparefn x l).
Proof.
  induction l as [|y l IH]; simpl; [reflexivity|].
  destruct (0 <? comparefn x y); [|reflexivity].
  rewrite perm_swap. apply perm_skip, IH.
Qed.

(** Whatever the comparison function, the result holds the elements of
    the array, each as often as before. *)
Lemma sort_perm (l : list A) : Permutation l (sort comparefn l).
Proof.
  induction l as [|x l IH]; simpl; [reflexivity|].
  rewrite <- insert_perm. apply perm_skip, IH.
Qed.

(** The comparison is the difference of a key. *)
Variable key : A -> Z.
Hypothesis comparefn_key :
  forall x y, 0 < comparefn x y <-> key y < key x.


Lemma insert_sorted (x : A) (l : list A) :
  StronglySorted (le_key key) l ->
  StronglySorted (le_key key) (insert comparefn x l).
Proof.
  induction 1 as [|y l Hs IH Hall]; simpl.
  - constructor; constructor.
  - destruct (Z.ltb_spec 0 (comparefn x y)) as [Hlt|Hge].
    + apply comparefn_key in Hlt. constructor; [exact IH|].
      apply (Permutation_Forall (insert_perm x l)).
      constructor; [unfold le_key; lia | exact Hall].
    + assert (Hxy : key x <= key y).
      { destruct (Z_lt_le_dec (key y) (key x)) as [Hc|Hc]; [|exact Hc].
        apply comparefn_key in Hc. lia. }
      constructor; [constructor; assumption|].
      constructor; [exact Hxy|].
      eapply Forall_impl; [|exact Hall].
      unfold le_key; intros; lia.
Qed.

Lemma sort_sorted (l : list A) :
  StronglySorted (le_key key) (sort comparefn l).
Proof.
  induction l as [|x l IH]; simpl; [constructor|].
  apply insert_sorted, IH.
Qed.

(** An element is moved past elements with a strictly smaller key only,
    so the elements with one and the same key keep their order. *)
Lemma insert_filter (k : Z) (x : A) (l : list A) :
  filter (has_key key k) (insert comparefn x l) =
  filter (has_key key k) (x :: l).
Proof.
  induction l as [|y l IH]; [reflexivity|].
  simpl insert. destruct (Z.ltb_spec 0 (comparefn x y)) as [Hlt|Hge];
    [|reflexivity].
  apply comparefn_key in Hlt.
  change (filter (has_key key k) (y :: insert comparefn x l))
    with (if has_key key k y
          then y :: filter (has_key key k) (insert comparefn x l)
          else filter (has_key key k) (insert comparefn x l)).
  rewrite IH. simpl. unfold has_key.
  destruct (Z.eqb_spec (key y) k), (Z.eqb_spec (key x) k);
    try reflexivity; lia.
Qed.

Lemma sort_filter (k : Z) (l : list A) :
  filter (has_key key k) (sort comparefn l) = filter (has_key key k) l.
Proof.
  induction l as [|x l IH]; [reflexivity|].
  simpl sort. rewrite insert_filter. simpl. rewrite IH. reflexivity.
Qed.

Lemma sorted_behind (pre post : list A) (s : A) :
  StronglySorted (le_key key) (pre ++ s :: post) ->
  Forall (fun e => key s <= key e) post.
Proof.
  induction pre as [|p pre IH]; simpl; intros H; inversion H; subst.
  - assumption.
  - apply IH; assumption.
Qed.

(** Order by key and order within each key determine the list: a sorted
    list that keeps the elements of each key in their order is the
    result of [sort], whatever algorithm produced it. *)
Lemma stable_sorted_unique (l1 l2 : list A) :
  StronglySorted (le_key key) l1 -> StronglySorted (le_key key) l2 ->
  (forall k, filter (has_key key k) l1 = filter (has_key key k) l2) ->
  l1 = l2.
Proof.
  intros H1; revert l2; induction H1 as [|a l1 Hs1 IH Hall1];
    intros l2 H2 Hf.
  - destruct l2 as [|b l2]; [reflexivity|].
    specialize (Hf (key b)). simpl in Hf. unfold has_key in Hf.
    rewrite Z.eqb_refl in Hf. discriminate.
  - destruct l2 as [|b l2].
    { specialize (Hf (key a)). simpl in Hf. unfold has_key in Hf.
      rewrite Z.eqb_refl in Hf. discriminate. }
    inversion H2 as [|? ? Hs2 Hall2]; subst.
    assert (Hab : key a <= key b).
    { assert (Hin : In b (filter (has_key key (key b)) (a :: l1))).
      { rewrite Hf. simpl. unfold has_key. rewrite Z.eqb_refl.
        left; reflexivity. }
      apply filter_In in Hin. destruct Hin as [[->|Hin] _]; [lia|].
      rewrite Forall_forall in Hall1. apply Hall1, Hin. }
    assert (Hba : key b <= key a).
    { assert (Hin : In a (filter (has_key key (key a)) (b :: l2))).
      { rewrite <- Hf. simpl. unfold has_key. rewrite Z.eqb_refl.
        left; reflexivity. }
      apply filter_In in Hin. destruct Hin as [[->|Hin] _]; [lia|].
      rewrite Forall_forall in Hall2. apply Hall2, Hin. }
    assert (Heq : a = b).
    { pose proof (Hf (key a)) as Hk. simpl in Hk. unfold has_key in Hk.
      rewrite Z.eqb_refl in Hk.
      replace (key b =? key a) with true in Hk
        by (symmetry; apply Z.eqb_eq; lia).
      congruence. }
    subst b. f_equal. apply IH; [exact Hs2|].
    intros k. specialize (Hf k). simpl in Hf.
    destruct (has_key key k a); congruence.
Qed.
End SortFacts.

Lemma comparePriority_key (x y : DiffWithPriority) :
  0 < comparePriority x y <-> priority y < priority x.
Proof. unfold comparePriority. lia. Qed.

(** The sort of line 451 on any array of entries.  The sorted array is a
    permutation of the input (and so are the texts handed on); it ascends
    by key; the entries of each key keep their relative order; no entry
    with a key below the sentinel follows an entry with the sentinel key,
    and when the timestamps are safe integers only entries with the
    sentinel key follow such an entry. *)
Theorem sortDiffs_stable (l : list DiffWithPriority) :
  let sorted := sort comparePriority l in
  sortDiffs l = List.map diff sorted /\
  Permutation l sorted /\
  Permutation (List.map diff l) (sortDiffs l) /\
  StronglySorted (le_key priority) sorted /\
  (forall k,
     filter (has_key priority k) sorted = filter (has_key priority k) l) /\
  (forall pre s post,
     sorted = pre ++ s :: post -> priority s = MAX_SAFE_INTEGER ->
     Forall (fun e => MAX_SAFE_INTEGER <= priority e) post) /\
  (Forall (fun e => priority e <= MAX_SAFE_INTEGER) l ->
   forall pre s post,
     sorted = pre ++ s :: post -> priority s = MAX_SAFE_INTEGER ->
     Forall (fun e => priority e = MAX_SAFE_INTEGER) post).
Proof.
  intros sorted.
  assert (Hperm : Permutation l sorted) by apply sort_perm.
  assert (Hsorted : StronglySorted (le_key priority) sorted)
    by apply (sort_sorted comparePriority priority comparePriority_key).
  assert (Hbehind : forall pre s post,
            sorted = pre ++ s :: post -> priority s = MAX_SAFE_INTEGER ->
            Forall (fun e => MAX_SAFE_INTEGER <= priority e) post).
  { intros pre s post Heq Hs. rewrite Heq in Hsorted.
    apply (sorted_behind priority) in Hsorted. rewrite Hs in Hsorted.
    exact Hsorted. }
  repeat split.
  - exact Hperm.
  - unfold sortDiffs. apply Permutation_map, Hperm.
  - exact Hsorted.
  - intros k.
    apply (sort_filter comparePriority priority comparePriority_key).
  - exact Hbehind.
  - intros Hrange pre s post Heq Hs.
    pose proof (Hbehind pre s post Heq Hs) as Hle.
    assert (Hin : Forall (fun e => priority e <= MAX_SAFE_INTEGER) post).
    { apply (Permutation_Forall Hperm) in Hrange. rewrite Heq in Hrange.
      apply Forall_app in Hrange. destruct Hrange as [_ Hr].
      inversion Hr; assumption. }
    rewrite Forall_forall in *. intros e He.
    specialize (Hle e He). specialize (Hin e He). lia.
Qed.

(** ** The authorization flow *)

Ltac run_flow :=
  unfold openAuthPage, try_finally, try_catch, bind, call_hook, emit,
    await, agent_getStatus, notify, assert, get_name, ret, throw,
    new_world;
  simpl.

Ltac split_callbacks callbacks :=
  destruct callbacks as [[[|] [|]]|].

(** C4: when the caller supplies both hooks, every run of the flow calls
    [onAuthStart] exactly once and [onAuthEnd] exactly once; the start
    hook is the first event and the end hook the last one, so the start
    hook comes strictly first and the end hook fires however the agent
    behaves: success, session already active, failure, cancellation, and
    also when the handler itself raises. *)
Theorem auth_hooks_once (ag : Agent) (cbs : Callbacks)
  (boxes : jsstring -> jsstring) :
  onAuthStart cbs = true ->
  onAuthEnd cbs = true ->
  let trace := log (snd (openAuthPage ag (Some cbs) (new_world boxes))) in
  count is_onAuthStart trace = 1%nat /\
  count is_onAuthEnd trace = 1%nat /\
  exists mid,
    trace = EvOnAuthStart :: mid ++ [EvOnAuthEnd] /\
    count is_onAuthStart mid = 0%nat /\
    count is_onAuthEnd mid = 0%nat.
Proof.
  destruct cbs as [s e]; simpl; intros -> ->.
  run_flow.
  destruct (requestAuthUrl ag) as [[u|]|[|name]]; simpl;
    [ destruct (waitForAuthToken ag (code u)) as [[]|[|name]]; simpl;
      [ destruct (eqb (getStatus ag) (lit "ready")); simpl
      |
      | destruct (eqb name (lit "AbortError")); simpl ]
    | destruct (eqb (getStatus ag) (lit "ready")); simpl
    |
    | destruct (eqb name (lit "AbortError")); simpl ];
    (split; [reflexivity|]; split; [reflexivity|]);
    match goal with
    | |- exists mid, ?t = _ /\ _ => exists (removelast (List.tl t))
    end;
    repeat split; reflexivity.
Qed.

(** C5: when the abort signal fires while the request for the URL or the
    wait for the token is pending, so that the awaited call is rejected
    with an error named [AbortError], the flow returns normally, calls no
    member of [notifications], and ends in [Cancelled], not in [Failed];
    behind the rejected call nothing happens but the end hook. *)
Theorem abort_is_cancelled (ag : Agent) (callbacks : option Callbacks)
  (boxes : jsstring -> jsstring) :
  aborted_while_pending ag ->
  let r := openAuthPage ag callbacks (new_world boxes) in
  fst r = Normal tt /\
  notifications_shown (log (snd r)) = [] /\
  auth_outcome r = Some Cancelled /\
  auth_outcome r <> Some Failed /\
  exists before call,
    log (snd r) =
      before ++ call :: hook_events callbacks onAuthEnd EvOnAuthEnd /\
    is_bound_call call = true.
Proof.
  intros [(e & Hreq & Habort) | (u & e & Hreq & Hwait & Habort)];
    destruct e as [|name]; unfold isAbortError in Habort;
    try discriminate; apply eqb_eq in Habort; subst name;
    unfold auth_outcome; run_flow; rewrite Hreq; simpl;
    try (rewrite Hwait; simpl);
    split_callbacks callbacks; simpl;
    (split; [reflexivity|]); (split; [reflexivity|]);
    (split; [reflexivity|]); (split; [discriminate|]);
    match goal with
    | |- exists before call, ?t = before ++ call :: ?tl /\ _ =>
        exists (firstn (List.length t - S (List.length tl)) t),
               (nth (List.length t - S (List.length tl)) t EvGetStatus)
    end;
    split; reflexivity.
Qed.

(** C7: when the agent issues no URL, no browser is opened and no token
    is awaited; a status of [ready] leads to the outcome of an already
    active session, told apart from a fresh success by its own
    notification, and any other status leads to [Failed]. *)
Theorem no_url_outcomes (ag : Agent) (callbacks : option Callbacks)
  (boxes : jsstring -> jsstring) :
  requestAuthUrl ag = Normal None ->
  let r := openAuthPage ag callbacks (new_world boxes) in
  count is_openExternal (log (snd r)) = 0%nat /\
  count is_waitForAuthToken (log (snd r)) = 0%nat /\
  (getStatus ag = lit "ready" ->
   notifications_shown (log (snd r)) = [StartAuthButAlreadyAuthorized] /\
   auth_outcome r = Some SucceededAlreadyActive) /\
  (getStatus ag <> lit "ready" ->
   notifications_shown (log (snd r)) = [AuthFailed] /\
   auth_outcome r = Some Failed).
Proof.
  intros Hreq. unfold auth_outcome. run_flow. rewrite Hreq. simpl.
  destruct (eqb (getStatus ag) (lit "ready")) eqn:E;
    [apply eqb_eq in E | apply eqb_neq in E];
    split_callbacks callbacks; simpl;
    repeat split; try reflexivity; intros; congruence.
Qed.

(** A fresh success shows its own notification, after the browser was
    opened and the token awaited. *)
Lemma fresh_success (ag : Agent) (callbacks : option Callbacks)
  (boxes : jsstring -> jsstring) (u : AuthUrl) :
  requestAuthUrl ag = Normal (Some u) ->
  waitForAuthToken ag (code u) = Normal tt ->
  getStatus ag = lit "ready" ->
  let r := openAuthPage ag callbacks (new_world boxes) in
  notifications_shown (log (snd r)) = [AuthSuccess] /\
  auth_outcome r = Some Succeeded /\
  count is_openExternal (log (snd r)) = 1%nat /\
  count is_waitForAuthToken (log (snd r)) = 1%nat.
Proof.
  intros Hreq Hwait Hst. unfold auth_outcome. run_flow.
  rewrite Hreq. simpl. rewrite Hwait. simpl. rewrite Hst. simpl.
  split_callbacks callbacks; simpl; repeat split; reflexivity.
Qed.

(** ** The lookups of the modification times *)

Lemma append_log_nil (w : world) : append_log w [] = w.
Proof.
  destruct w; unfold append_log; simpl. rewrite app_nil_r. reflexivity.
Qed.

Lemma append_log_app (w : world) (es1 es2 : list event) :
  append_log (append_log w es1) es2 = append_log w (es1 ++ es2).
Proof. unfold append_log; simpl. rewrite app_assoc. reflexivity. Qed.

Lemma emit_run (e : event) (w : world) :
  emit e w = (Normal tt, append_log w [e]).
Proof. reflexivity. Qed.

Lemma lookup_run (h : Host) (repo : Repository) (item : jsstring)
  (w : world) :
  lookup h repo item w =
    (Normal (settled_promise h repo item),
     append_log w (stat_requests h repo [item])).
Proof.
  unfold lookup, settled_promise, settled, settle_time, stat_requests,
    filepath_of, bind, ret.
  simpl.
  destruct (exec_header item) as [f|]; [destruct (truthy f)|]; simpl;
    rewrite ?append_log_nil; try reflexivity.
  destruct (fs_stat h (Uri_joinPath h (rootUri repo) f)); reflexivity.
Qed.

Lemma map_async_run (h : Host) (repo : Repository)
  (items : list jsstring) (w : world) :
  map_async (lookup h repo) items w =
    (Normal (List.map (settled_promise h repo) items),
     append_log w (stat_requests h repo items)).
Proof.
  revert w; induction items as [|item items IH]; intros w.
  - simpl. unfold ret. rewrite append_log_nil. reflexivity.
  - simpl map_async. unfold bind at 1. rewrite lookup_run.
    unfold bind at 1. rewrite IH. unfold ret.
    rewrite append_log_app. unfold stat_requests. simpl.
    rewrite app_nil_r. reflexivity.
Qed.

Lemma prioritize_run (h : Host) (repo : Repository) (d : jsstring)
  (w : world) :
  prioritize h repo d w =
    (completion_map sortDiffs
       (Promise_all (List.map (settled_promise h repo) (split_diff d))),
     append_log w (stat_requests h repo (split_diff d))).
Proof.
  unfold prioritize, bind. rewrite map_async_run. unfold await, ret.
  destruct (Promise_all _); reflexivity.
Qed.

Lemma first_rejection_some {A : Type} (ps : list (promise A))
  (t : nat) (e : thrown) :
  first_rejection ps = Some (t, e) ->
  exists p,
    In p ps /\ outcome p = Abrupt e /\ settles_at p = t /\
    forall p' e', In p' ps -> outcome p' = Abrupt e' ->
                  (t <= settles_at p')%nat.
Proof.
  revert t e; induction ps as [|p ps IH]; intros t e; simpl;
    [discriminate|].
  destruct (outcome p) as [a|e0] eqn:Hp.
  - intros H. destruct (IH t e H) as (q & Hin & Hq & Ht & Hmin).
    exists q. split; [right; exact Hin|]. split; [exact Hq|].
    split; [exact Ht|].
    intros p' e' [<- | Hin'] Hp'; [congruence | eapply Hmin; eauto].
  - destruct (first_rejection ps) as [[t1 e1]|] eqn:Hps.
    + destruct (IH t1 e1 eq_refl) as (q & Hin & Hq & Ht & Hmin).
      destruct (Nat.leb_spec (settles_at p) t1) as [Hle | Hlt];
        intros H; inversion H; subst.
      * exists p. split; [left; reflexivity|]. split; [exact Hp|].
        split; [reflexivity|].
        intros p' e' [<- | Hin'] Hp'; [lia|].
        specialize (Hmin p' e' Hin' Hp'). lia.
      * exists q. split; [right; exact Hin|]. split; [exact Hq|].
        split; [reflexivity|].
        intros p' e' [<- | Hin'] Hp'; [lia | eapply Hmin; eauto].
    + intros H; inversion H; subst.
      exists p. split; [left; reflexivity|]. split; [exact Hp|].
      split; [reflexivity|].
      intros p' e' [<- | Hin'] Hp'; [lia|]. exfalso.
      clear - Hps Hin' Hp'. induction ps as [|q ps IH]; [destruct Hin'|].
      simpl in Hps. destruct Hin' as [<- | Hin'].
      * rewrite Hp' in Hps. destruct (first_rejection ps) as [[? ?]|];
          [destruct (_ <=? _)%nat|]; discriminate.
      * destruct (outcome q); [apply IH; assumption|].
        destruct (first_rejection ps) as [[? ?]|];
          [destruct (_ <=? _)%nat|]; discriminate.
Qed.

Lemma first_rejection_none {A : Type} (ps : list (promise A)) :
  first_rejection ps = None <->
  forall p e, In p ps -> outcome p <> Abrupt e.
Proof.
  induction ps as [|p ps IH]; simpl.
  - split; [intros _ p e [] | reflexivity].
  - destruct (outcome p) as [a|e0] eqn:Hp.
    + rewrite IH. split.
      * intros H q e [<- | Hin]; [congruence | apply H, Hin].
      * intros H q e Hin. apply H. right. exact Hin.
    + split.
      * destruct (first_rejection ps) as [[? ?]|];
          [destruct (_ <=? _)%nat|]; discriminate.
      * intros H. exfalso. apply (H p e0); [left; reflexivity | exact Hp].
Qed.

Lemma fulfilled_values_all {A : Type} (ps : list (promise A)) :
  (forall p e, In p ps -> outcome p <> Abrupt e) ->
  List.map Normal (fulfilled_values ps) = List.map outcome ps.
Proof.
  induction ps as [|p ps IH]; intros H; [reflexivity|].
  unfold fulfilled_values in *. simpl.
  destruct (outcome p) as [a|e] eqn:Hp.
  - simpl. rewrite IH; [reflexivity|].
    intros q e Hin. apply H. right. exact Hin.
  - exfalso. apply (H p e); [left; reflexivity | exact Hp].
Qed.

Lemma settled_fulfilled_diff (h : Host) (repo : Repository)
  (item : jsstring) (p : DiffWithPriority) :
  settled h repo item = Normal p ->
  diff p = item /\ key_of h repo item = Normal (priority p).
Proof.
  unfold settled, key_of. destruct (filepath_of item) as [f|].
  - destruct (fs_stat h _); simpl; [|discriminate].
    intros H; inversion H; split; reflexivity.
  - intros H; inversion H; split; reflexivity.
Qed.

Lemma settled_rejected_iff (h : Host) (repo : Repository)
  (item : jsstring) :
  (exists e, settled h repo item = Abrupt e) <-> stat_fails h repo item.
Proof.
  unfold settled, stat_fails. split.
  - intros [e He]. destruct (filepath_of item) as [f|]; [|discriminate].
    destruct (fs_stat h _) as [st|e'] eqn:E; [discriminate|].
    exists f, e'. split; [reflexivity | exact E].
  - intros (f & e & -> & ->). exists e. reflexivity.
Qed.

Lemma keyed_of_settled (h : Host) (repo : Repository)
  (items : list jsstring) (l : list DiffWithPriority) :
  List.map Normal l = List.map (settled h repo) items ->
  keyed h repo items l.
Proof.
  unfold keyed.
  revert l; induction items as [|item items IH]; intros [|p l]; simpl;
    try discriminate; [constructor|].
  intros H. inversion H as [[Hp Hl]].
  symmetry in Hp. apply settled_fulfilled_diff in Hp.
  constructor; [exact Hp | apply IH, Hl].
Qed.

Lemma keyed_diffs (h : Host) (repo : Repository)
  (items : list jsstring) (l : list DiffWithPriority) :
  keyed h repo items l -> List.map diff l = items.
Proof.
  induction 1 as [|item e items l [He _] _ IH]; simpl; congruence.
Qed.

Lemma keyed_settled (h : Host) (repo : Repository)
  (items : list jsstring) (l : list DiffWithPriority) :
  keyed h repo items l ->
  List.map Normal l = List.map (settled h repo) items.
Proof.
  induction 1 as [|item e items l [He Hk] _ IH]; simpl; [reflexivity|].
  rewrite IH. f_equal. unfold settled, key_of in *.
  destruct e as [d k]. simpl in He, Hk. subst d.
  destruct (filepath_of item) as [f|].
  - destruct (fs_stat h _); simpl in *; [|discriminate].
    inversion Hk; reflexivity.
  - inversion Hk; reflexivity.
Qed.

Lemma outcome_settled (h : Host) (repo : Repository)
  (items : list jsstring) :
  List.map outcome (List.map (settled_promise h repo) items) =
  List.map (settled h repo) items.
Proof. rewrite List.map_map. reflexivity. Qed.

(** When no request is rejected the combined promise is fulfilled with
    the chunks in their order, each with its key. *)
Lemma lookups_fulfil (h : Host) (repo : Repository)
  (items : list jsstring) :
  (forall item, In item items -> ~ stat_fails h repo item) ->
  exists l,
    Promise_all (List.map (settled_promise h repo) items) = Normal l /\
    keyed h repo items l.
Proof.
  intros Hok.
  assert (Hall : forall p e,
             In p (List.map (settled_promise h repo) items) ->
             outcome p <> Abrupt e).
  { intros p e Hin Hp. apply in_map_iff in Hin.
    destruct Hin as (item & <- & Hin).
    apply (Hok item Hin). apply settled_rejected_iff. exists e. exact Hp. }
  exists (fulfilled_values (List.map (settled_promise h repo) items)).
  unfold Promise_all. rewrite (proj2 (first_rejection_none _) Hall).
  split; [reflexivity|].
  apply keyed_of_settled. rewrite fulfilled_values_all by exact Hall.
  apply outcome_settled.
Qed.

Lemma keyed_fulfil (h : Host) (repo : Repository)
  (items : list jsstring) (l : list DiffWithPriority) :
  keyed h repo items l ->
  Promise_all (List.map (settled_promise h repo) items) = Normal l.
Proof.
  intros Hk. apply keyed_settled in Hk.
  assert (Hall : forall p e,
             In p (List.map (settled_promise h repo) items) ->
             outcome p <> Abrupt e).
  { intros p e Hin Hp.
    assert (Hin' : In (outcome p) (List.map (settled h repo) items)).
    { rewrite <- outcome_settled. apply in_map, Hin. }
    rewrite <- Hk, Hp in Hin'. apply in_map_iff in Hin'.
    destruct Hin' as (x & Hx & _). discriminate Hx. }
  unfold Promise_all. rewrite (proj2 (first_rejection_none _) Hall).
  f_equal.
  pose proof (fulfilled_values_all _ Hall) as Hv.
  rewrite outcome_settled, <- Hk in Hv.
  clear - Hv. revert l Hv.
  induction (fulfilled_values _) as [|a v IH]; intros [|b l] H;
    simpl in H; try discriminate; [reflexivity|].
  inversion H. f_equal. apply IH. assumption.
Qed.

(** When a request is rejected the combined promise is rejected, with
    the reason of a rejected request that settles no later than any
    other rejected request. *)
Lemma lookups_reject (h : Host) (repo : Repository)
  (items : list jsstring) :
  (exists item, In item items /\ stat_fails h repo item) ->
  exists item f e,
    In item items /\ filepath_of item = Some f /\
    fs_stat h (Uri_joinPath h (rootUri repo) f) = Abrupt e /\
    (forall item', In item' items -> stat_fails h repo item' ->
                   (settle_time h repo item <= settle_time h repo item')%nat)
    /\
    Promise_all (List.map (settled_promise h repo) items) = Abrupt e.
Proof.
  intros (item0 & Hin0 & Hfail0).
  apply settled_rejected_iff in Hfail0. destruct Hfail0 as [e0 He0].
  unfold Promise_all.
  destruct (first_rejection (List.map (settled_promise h repo) items))
    as [[t e]|] eqn:Hfirst.
  - destruct (first_rejection_some _ t e Hfirst)
      as (p & Hin & Hp & Ht & Hmin).
    apply in_map_iff in Hin. destruct Hin as (item & <- & Hin).
    simpl in Hp, Ht.
    assert (Hfail : stat_fails h repo item)
      by (apply settled_rejected_iff; eauto).
    destruct Hfail as (f & e' & Hf & He').
    assert (e' = e).
    { unfold settled in Hp. rewrite Hf, He' in Hp. simpl in Hp.
      congruence. }
    subst e'. exists item, f, e.
    repeat split; try assumption.
    intros item' Hin' Hfail'. apply settled_rejected_iff in Hfail'.
    destruct Hfail' as [e' He''].
    rewrite Ht.
    apply (Hmin (settled_promise h repo item') e');
      [apply in_map, Hin' | exact He''].
  - exfalso.
    apply (proj1 (first_rejection_none _) Hfirst
             (settled_promise h repo item0) e0);
      [apply in_map, Hin0 | exact He0].
Qed.

Lemma count_app (p : event -> bool) (l1 l2 : list event) :
  count p (l1 ++ l2) = (count p l1 + count p l2)%nat.
Proof. unfold count. rewrite filter_app, length_app. reflexivity. Qed.

Lemma count_stat_requests (p : event -> bool) (h : Host)
  (repo : Repository) (items : list jsstring) :
  (forall u, p (EvStat u) = false) ->
  count p (stat_requests h repo items) = 0%nat.
Proof.
  intros Hp. unfold count, stat_requests.
  induction items as [|item items IH]; simpl; [reflexivity|].
  rewrite filter_app, length_app, IH.
  destruct (filepath_of item); simpl; [rewrite Hp|]; reflexivity.
Qed.

(** What the progress task does, by the way the lookups settle and the
    agent answers. *)
Lemma generateFromDiff_run (h : Host) (ag : Agent) (repo : Repository)
  (d : jsstring) (w : world) :
  let stats := stat_requests h repo (split_diff d) in
  generateFromDiff h ag repo d w =
    match
      Promise_all (List.map (settled_promise h repo) (split_diff d))
    with
    | Abrupt e => (Abrupt e, append_log w stats)
    | Normal l =>
        let diffs := sortDiffs l in
        match agent_generateCommitMessage ag diffs with
        | Abrupt e =>
            (Abrupt e,
             append_log w (stats ++ [EvGenerateCommitMessage diffs]))
        | Normal message =>
            set_inputBox repo message
              (append_log w (stats ++ [EvGenerateCommitMessage diffs]))
        end
    end.
Proof.
  intros stats. unfold generateFromDiff, bind at 1.
  rewrite prioritize_run. fold stats.
  destruct (Promise_all _) as [l|e]; simpl; [|reflexivity].
  unfold bind, emit, await. simpl.
  destruct (agent_generateCommitMessage ag (sortDiffs l));
    unfold append_log; simpl; rewrite <- app_assoc; reflexivity.
Qed.

(** C2, as stated, fails: in a diff of two files of which the second is
    gone from the work tree, the rejected [stat] of the second chunk is
    not turned into the sentinel key; the combined promise is rejected
    with the error of [stat], no list of chunks results, and the task ends
    before the agent is called. *)
Lemma failed_stat_rejects_operation :
  stat_fails Demo.host Demo.clean_repo
    (nth 1 (split_diff Demo.two_files) []) /\
  fst (prioritize Demo.host Demo.clean_repo Demo.two_files Demo.fresh) =
    Abrupt (ThrownError (lit "FileNotFound")) /\
  (forall l,
     fst (prioritize Demo.host Demo.clean_repo Demo.two_files Demo.fresh)
     <> Normal l) /\
  count is_generateCommitMessage
    (log (snd (generateFromDiff Demo.host Demo.ready_agent Demo.clean_repo
                 Demo.two_files Demo.fresh))) = 0%nat.
Proof.
  repeat split.
  - exists (lit "missing"), (ThrownError (lit "FileNotFound")).
    split; reflexivity.
  - intros l H. vm_compute in H. discriminate.
Qed.

(** The rejection that wins is the one that settles first, not the one
    that stands first: of two files that are gone, the second of which
    is reported first, the task ends with the error of the second. *)
Lemma first_settled_rejection_wins :
  fst (prioritize Sample.racing_host Demo.clean_repo Sample.racing_diff
         Demo.fresh) = Abrupt (ThrownError (lit "fast")).
Proof. reflexivity. Qed.

(** C2 fails on the code.  What holds of the claim: every chunk that
    names a path has its [stat] requested, whatever becomes of the other
    lookups; a chunk without a path gets the sentinel key without a
    request and without an error; and when no request is rejected the
    operation goes on with all the chunks.  What does not hold: a
    rejected [stat] is not replaced by the sentinel.  The combined
    promise is rejected with the reason of a rejected request, the one
    that settles first, and the task ends with that very reason before
    the agent is called and without a write to the input box. *)
Theorem lookups_all_or_nothing (h : Host) (ag : Agent) (repo : Repository)
  (d : jsstring) (w : world) :
  let items := split_diff d in
  let p := prioritize h repo d w in
  let r := generateFromDiff h ag repo d w in
  log (snd p) = log w ++ stat_requests h repo items /\
  (forall item w',
     filepath_of item = None ->
     lookup h repo item w' =
       (Normal
          {| settles_at := 0;
             outcome :=
               Normal {| diff := item; priority := MAX_SAFE_INTEGER |} |},
        w')) /\
  ((forall item, In item items -> ~ stat_fails h repo item) ->
   exists l, fst p = Normal l /\ Permutation items l) /\
  ((exists item, In item items /\ stat_fails h repo item) ->
   exists item f e,
     In item items /\
     filepath_of item = Some f /\
     fs_stat h (Uri_joinPath h (rootUri repo) f) = Abrupt e /\
     (forall item',
        In item' items -> stat_fails h repo item' ->
        (settle_time h repo item <= settle_time h repo item')%nat) /\
     fst p = Abrupt e /\
     fst r = Abrupt e /\
     count is_generateCommitMessage (log (snd r)) =
       count is_generateCommitMessage (log w) /\
     count is_setInputBox (log (snd r)) = count is_setInputBox (log w) /\
     inputBox (snd r) = inputBox w).
Proof.
  intros items p r. subst p r.
  pose proof (generateFromDiff_run h ag repo d w) as Hrun.
  simpl in Hrun. rewrite Hrun, prioritize_run. fold items.
  split; [reflexivity|]. split; [|split].
  - intros item w' Hnone. rewrite lookup_run.
    unfold settled_promise, settled, settle_time, stat_requests. simpl.
    rewrite Hnone. simpl. rewrite append_log_nil. reflexivity.
  - intros Hok.
    destruct (lookups_fulfil h repo items Hok) as (l & Hl & Hkeyed).
    simpl. rewrite Hl. simpl. eexists; split; [reflexivity|].
    apply keyed_diffs in Hkeyed. rewrite <- Hkeyed.
    unfold sortDiffs. apply Permutation_map, sort_perm.
  - intros Hfail.
    destruct (lookups_reject h repo items Hfail)
      as (item & f & e & Hin & Hf & He & Hmin & Hall).
    exists item, f, e. rewrite Hall. simpl.
    rewrite !count_app, !count_stat_requests by reflexivity.
    repeat split; try assumption; apply Nat.add_0_r.
Qed.

Lemma keyed_in (h : Host) (repo : Repository) (items : list jsstring)
  (l : list DiffWithPriority) (e : DiffWithPriority) :
  keyed h repo items l -> In e l ->
  key_of h repo (diff e) = Normal (priority e).
Proof.
  induction 1 as [|item e0 items l [He Hk] _ IH]; intros Hin;
    [destruct Hin|].
  destruct Hin as [<- | Hin]; [rewrite He; exact Hk | apply IH, Hin].
Qed.

(** C3, as stated, fails: the sentinel is a number like the others.  On
    a host that reports the modification time 2^53, which lies above the
    sentinel, a chunk without a path is moved in front of the chunk with
    the resolved timestamp that preceded it. *)
Lemma sentinel_before_late_timestamp :
  split_diff Sample.late_diff = [lit "diff --git a/f b/f"; lit "diff -r"] /\
  key_of Sample.late_host Demo.clean_repo (lit "diff --git a/f b/f") =
    Normal (2 ^ 53) /\
  filepath_of (lit "diff -r") = None /\
  MAX_SAFE_INTEGER < 2 ^ 53 /\
  fst (prioritize Sample.late_host Demo.clean_repo Sample.late_diff
         Demo.fresh) =
    Normal [lit "diff -r"; lit "diff --git a/f b/f"].
Proof. repeat split. Qed.

(** C3, amended: when every lookup is fulfilled, so that [entries] holds
    the chunks in their order with their keys, the prioritized sequence,
    which is the sequence handed to the agent, is the stable ascending
    sort of the chunks by key: it is a permutation of the chunks, it
    ascends by key, and chunks with equal keys keep their relative
    order.  A chunk whose path could not be resolved has the sentinel
    key, and whatever follows it has a key that is not below the
    sentinel: it sorts at or after every chunk whose timestamp does not
    exceed [MAX_SAFE_INTEGER]. *)
Theorem prioritized_is_stable_sort (h : Host) (ag : Agent)
  (repo : Repository) (d : jsstring) (w : world)
  (entries : list DiffWithPriority) :
  keyed h repo (split_diff d) entries ->
  let sorted := sort comparePriority entries in
  fst (prioritize h repo d w) = Normal (List.map diff sorted) /\
  (exists behind,
     log (snd (generateFromDiff h ag repo d w)) =
       log w ++ stat_requests h repo (split_diff d) ++
       EvGenerateCommitMessage (List.map diff sorted) :: behind) /\
  Permutation entries sorted /\
  Permutation (split_diff d) (List.map diff sorted) /\
  StronglySorted (le_key priority) sorted /\
  (forall k,
     filter (has_key priority k) sorted =
     filter (has_key priority k) entries) /\
  (forall pre s post,
     sorted = pre ++ s :: post ->
     filepath_of (diff s) = None ->
     priority s = MAX_SAFE_INTEGER /\
     Forall (fun e => MAX_SAFE_INTEGER <= priority e) post /\
     forall e, In e post -> priority e <= MAX_SAFE_INTEGER ->
               priority e = priority s).
Proof.
  intros Hkeyed sorted.
  assert (Hperm : Permutation entries sorted) by apply sort_perm.
  assert (Hsorted : StronglySorted (le_key priority) sorted)
    by apply (sort_sorted comparePriority priority comparePriority_key).
  pose proof (keyed_fulfil h repo _ _ Hkeyed) as Hall.
  split.
  { rewrite prioritize_run, Hall. reflexivity. }
  split.
  { pose proof (generateFromDiff_run h ag repo d w) as Hrun.
    cbv zeta in Hrun. rewrite Hrun, Hall.
    fold (sortDiffs entries).
    destruct (agent_generateCommitMessage ag (sortDiffs entries));
      simpl; rewrite <- ?app_assoc; simpl; eexists; reflexivity. }
  split; [exact Hperm|]. split.
  { rewrite <- (keyed_diffs h repo _ _ Hkeyed).
    apply Permutation_map, Hperm. }
  split; [exact Hsorted|]. split.
  { intros k.
    apply (sort_filter comparePriority priority comparePriority_key). }
  intros pre s post Heq Hnone.
  assert (Hs : priority s = MAX_SAFE_INTEGER).
  { assert (Hin : In s entries).
    { apply (Permutation_in s (Permutation_sym Hperm)).
      rewrite Heq. apply in_or_app. right. left. reflexivity. }
    pose proof (keyed_in h repo _ _ s Hkeyed Hin) as Hk.
    unfold key_of in Hk. rewrite Hnone in Hk. congruence. }
  assert (Hbehind : Forall (fun e => MAX_SAFE_INTEGER <= priority e) post).
  { rewrite Heq in Hsorted.
    apply (sorted_behind priority) in Hsorted. rewrite Hs in Hsorted.
    exact Hsorted. }
  split; [exact Hs|]. split; [exact Hbehind|].
  intros e He Hle. rewrite Forall_forall in Hbehind.
  specialize (Hbehind e He). lia.
Qed.

(** C8, as stated, fails: a diff without any file boundary and without a
    file header is prioritized to the sequence that holds the diff
    itself, and not to the empty sequence. *)
Lemma no_boundary_not_empty :
  count_boundaries Demo.no_header = 0%nat /\
  prioritize Demo.host Demo.clean_repo Demo.no_header Demo.fresh =
    (Normal [Demo.no_header], Demo.fresh) /\
  fst (prioritize Demo.host Demo.clean_repo Demo.no_header Demo.fresh)
  <> Normal [].
Proof.
  repeat split. vm_compute. discriminate.
Qed.

(** C8, amended: a diff without any file boundary is split into exactly
    one chunk, the diff itself.  Its prioritization is the sequence of
    that one chunk: without an error and without a [stat] request when no
    path can be read from the diff, and without an error when the path
    has a modification time. *)
Theorem no_boundary_single_chunk (h : Host) (repo : Repository)
  (d : jsstring) (w : world) :
  count_boundaries d = 0%nat ->
  split_diff d = [d] /\
  (filepath_of d = None -> prioritize h repo d w = (Normal [d], w)) /\
  (forall f st,
     filepath_of d = Some f ->
     fs_stat h (Uri_joinPath h (rootUri repo) f) = Normal st ->
     prioritize h repo d w =
       (Normal [d],
        append_log w [EvStat (Uri_joinPath h (rootUri repo) f)])).
Proof.
  intros Hzero.
  assert (Hsplit : split_diff d = [d])
    by apply (split_scan_no_boundary d [] Hzero).
  split; [exact Hsplit|].
  rewrite prioritize_run, Hsplit.
  unfold Promise_all, fulfilled_values, settled_promise, settled,
    settle_time, stat_requests.
  simpl. split.
  - intros ->. simpl. rewrite append_log_nil. reflexivity.
  - intros f st -> ->. reflexivity.
Qed.

(** ** Obtaining the diff *)

Lemma getDiff_run (repo : Repository) (staged : jsstring) (w : world) :
  repo_diff repo true = Normal staged ->
  getDiff repo w =
    match trim staged with
    | [] =>
        match repo_diff repo false with
        | Normal unstaged =>
            (Normal (trim unstaged),
             append_log w [EvRepoDiff (rootUri repo) true;
                           EvRepoDiff (rootUri repo) false])
        | Abrupt e =>
            (Abrupt e,
             append_log w [EvRepoDiff (rootUri repo) true;
                           EvRepoDiff (rootUri repo) false])
        end
    | _ :: _ =>
        (Normal (trim staged), append_log w [EvRepoDiff (rootUri repo) true])
    end.
Proof.
  intros Hs. unfold getDiff, bind, emit, await, ret. simpl. rewrite Hs.
  destruct (trim staged) as [|c t]; simpl; [|reflexivity].
  destruct (repo_diff repo false);
    unfold append_log; simpl; rewrite <- app_assoc; reflexivity.
Qed.

Lemma generateForRepo_run (h : Host) (ag : Agent) (repo : Repository)
  (w : world) :
  generateForRepo h ag repo w =
    match getDiff repo w with
    | (Normal [], w') => (Normal tt, w')
    | (Normal (c :: d), w') =>
        generateFromDiff h ag repo (c :: d)
          (append_log w' [EvExecuteCommand (lit "workbench.view.scm")])
    | (Abrupt e, w') => (Abrupt e, w')
    end.
Proof.
  unfold generateForRepo, bind at 1.
  destruct (getDiff repo w) as [[[|c d]|e] w']; reflexivity.
Qed.

Lemma selectRepo_run (h : Host) (repos : list Repository) (w : world) :
  exists es,
    snd (selectRepo h repos w) = append_log w es /\
    (forall p, (forall items, p (EvShowQuickPick items) = false) ->
               count p es = 0%nat) /\
    exists o, fst (selectRepo h repos w) = Normal o.
Proof.
  unfold selectRepo. destruct (List.length repos =? 1)%nat.
  - exists []. rewrite append_log_nil.
    split; [reflexivity|]. split; [reflexivity|].
    eexists; reflexivity.
  - eexists [_]. split; [reflexivity|]. split; [|eexists; reflexivity].
    intros p Hp. unfold count. simpl. rewrite Hp. reflexivity.
Qed.

(** The events of the progress task are requests to [stat], the call of
    the agent and the write to the input box. *)
Lemma generateFromDiff_log (h : Host) (ag : Agent) (repo : Repository)
  (d : jsstring) (w : world) (p : event -> bool) :
  (forall u, p (EvStat u) = false) ->
  (forall ds, p (EvGenerateCommitMessage ds) = false) ->
  (forall u m, p (EvSetInputBox u m) = false) ->
  count p (log (snd (generateFromDiff h ag repo d w))) = count p (log w).
Proof.
  intros Hstat Hgen Hset.
  pose proof (generateFromDiff_run h ag repo d w) as Hrun.
  simpl in Hrun. rewrite Hrun.
  destruct (Promise_all _) as [l|e]; simpl.
  - destruct (agent_generateCommitMessage ag (sortDiffs l)); simpl;
      rewrite !count_app, (count_stat_requests p h repo _ Hstat);
      unfold count; simpl; rewrite ?Hgen, ?Hset; simpl; lia.
  - rewrite count_app, (count_stat_requests p h repo _ Hstat). lia.
Qed.

(** C6: for a repository whose staged diff and unstaged diff are both
    empty, the operation asks for the staged diff, then for the unstaged
    one, and ends: the agent is not called and the input boxes are as
    they were, also when the repository was chosen among several.  The
    unstaged diff is asked for only as a fallback: when the staged diff,
    once trimmed, is not empty, no request for the unstaged diff is
    made. *)
Theorem empty_diffs_no_effect (h : Host) (ag : Agent) :
  (forall repo w,
     repo_diff repo true = Normal [] ->
     repo_diff repo false = Normal [] ->
     generateForRepo h ag repo w =
       (Normal tt,
        append_log w [EvRepoDiff (rootUri repo) true;
                      EvRepoDiff (rootUri repo) false])) /\
  (forall repos repo boxes,
     repos <> [] ->
     fst (selectRepo h repos (new_world boxes)) = Normal (Some repo) ->
     repo_diff repo true = Normal [] ->
     repo_diff repo false = Normal [] ->
     let r := generateCommitMessage h ag (Some repos) (new_world boxes) in
     fst r = Normal tt /\
     count is_generateCommitMessage (log (snd r)) = 0%nat /\
     count is_setInputBox (log (snd r)) = 0%nat /\
     inputBox (snd r) = boxes) /\
  (forall repo staged w,
     repo_diff repo true = Normal staged ->
     trim staged <> [] ->
     count is_uncachedDiff (log (snd (generateForRepo h ag repo w))) =
       count is_uncachedDiff (log w)).
Proof.
  assert (Hempty : forall repo w,
     repo_diff repo true = Normal [] ->
     repo_diff repo false = Normal [] ->
     generateForRepo h ag repo w =
       (Normal tt,
        append_log w [EvRepoDiff (rootUri repo) true;
                      EvRepoDiff (rootUri repo) false])).
  { intros repo w Hs Hu.
    rewrite generateForRepo_run, (getDiff_run repo [] w Hs), Hu.
    reflexivity. }
  split; [exact Hempty|]. split.
  - intros repos repo boxes Hne Hsel Hs Hu r. subst r.
    unfold generateCommitMessage.
    destruct repos as [|r0 repos]; [congruence|].
    change (List.length (r0 :: repos) <? 1)%nat with false. cbv iota.
    destruct (selectRepo_run h (r0 :: repos) (new_world boxes))
      as (es & Hw & Hcount & _).
    unfold bind.
    destruct (selectRepo h (r0 :: repos) (new_world boxes)) as [c w'].
    simpl in Hsel, Hw. subst c w'.
    rewrite (Hempty repo _ Hs Hu). simpl.
    rewrite !count_app, !Hcount by reflexivity.
    repeat split; reflexivity.
  - intros repo staged w Hs Hne.
    rewrite generateForRepo_run, (getDiff_run repo staged w Hs).
    destruct (trim staged) as [|c t]; [congruence|].
    rewrite generateFromDiff_log by reflexivity.
    simpl. rewrite !count_app. unfold count. simpl. lia.
Qed.

(** C10: the test for an empty diff is made on the trimmed text.  A
    staged diff of white space only counts as empty: the unstaged diff
    is asked for, and when that too is white space only the operation
    ends there.  Otherwise the text handed to the progress task, whose
    first step splits it, is the trimmed unstaged diff, or, for a staged
    diff with other content, the trimmed staged diff; it is never the raw
    text. *)
Theorem diff_is_trimmed (h : Host) (ag : Agent) (repo : Repository)
  (staged unstaged : jsstring) (w : world) :
  repo_diff repo true = Normal staged ->
  repo_diff repo false = Normal unstaged ->
  let cached := EvRepoDiff (rootUri repo) true in
  let uncached := EvRepoDiff (rootUri repo) false in
  let scm := EvExecuteCommand (lit "workbench.view.scm") in
  (whitespace_only staged -> whitespace_only unstaged ->
   generateForRepo h ag repo w =
     (Normal tt, append_log w [cached; uncached])) /\
  (whitespace_only staged -> ~ whitespace_only unstaged ->
   getDiff repo w =
     (Normal (trim unstaged), append_log w [cached; uncached]) /\
   generateForRepo h ag repo w =
     generateFromDiff h ag repo (trim unstaged)
       (append_log w [cached; uncached; scm])) /\
  (~ whitespace_only staged ->
   getDiff repo w = (Normal (trim staged), append_log w [cached]) /\
   generateForRepo h ag repo w =
     generateFromDiff h ag repo (trim staged)
       (append_log w [cached; scm])).
Proof.
  intros Hs Hu cached uncached scm.
  rewrite generateForRepo_run, (getDiff_run repo staged w Hs), Hu.
  rewrite <- !trim_nil_iff.
  split; [|split].
  - intros -> ->. reflexivity.
  - intros -> Hne. split; [reflexivity|].
    destruct (trim unstaged) as [|c t]; [congruence|].
    rewrite append_log_app. reflexivity.
  - intros Hne. destruct (trim staged) as [|c t]; [congruence|].
    split; [reflexivity|]. rewrite append_log_app. reflexivity.
Qed.

(** ** The order of the repositories in the quick pick *)

Lemma startsWith_refl (s : jsstring) : startsWith s s = true.
Proof.
  induction s as [|c s IH]; simpl; [reflexivity|].
  rewrite N.eqb_refl. exact IH.
Qed.

Lemma startsWith_antisym (s t : jsstring) :
  startsWith s t = true -> startsWith t s = true -> s = t.
Proof.
  revert t; induction s as [|c s IH]; intros [|d t]; simpl;
    try reflexivity; try discriminate.
  rewrite !andb_true_iff, !N.eqb_eq. intros [-> H1] [_ H2].
  f_equal. apply IH; assumption.
Qed.

(** The comparison function ranks a root in front of every other root
    that it is a prefix of. *)
Lemma compareItems_prefix (h : Host) (a b : QuickPickItem) :
  detail a <> detail b ->
  startsWith (detail b) (detail a) = true ->
  compareItems h a b = -1 /\ compareItems h b a = 1.
Proof.
  intros Hne Hpre. unfold compareItems. rewrite Hpre.
  destruct (startsWith (detail a) (detail b)) eqn:E; [|split; reflexivity].
  exfalso. apply Hne. apply startsWith_antisym; assumption.
Qed.

(** With two repositories the parent is offered first, in whichever order
    the git extension lists them. *)
Lemma two_repos_parent_first (h : Host) (parent child : Repository) :
  fsPath (rootUri parent) <> fsPath (rootUri child) ->
  startsWith (fsPath (rootUri child)) (fsPath (rootUri parent)) = true ->
  quickPickItems h [parent; child] = [toItem h parent; toItem h child] /\
  quickPickItems h [child; parent] = [toItem h parent; toItem h child].
Proof.
  intros Hne Hpre.
  destruct (compareItems_prefix h (toItem h parent) (toItem h child))
    as [H1 H2]; [exact Hne | exact Hpre |].
  unfold quickPickItems. simpl. rewrite H1, H2. split; reflexivity.
Qed.

(** C9 fails on the code for three repositories.  With the roots
    [/repo/a], [/m] and [/repo], listed in this order, the quick pick
    offers [/repo/a] before its parent [/repo]: the comparison function
    ranks [/repo/a] before [/m] and [/m] before [/repo] by their names,
    and [/repo] before [/repo/a] by the prefix test, so it describes no
    order that the sort could establish. *)
Theorem child_offered_before_parent (h : Host)
  (dA dM dR : bool -> completion jsstring) (w : world) :
  path_basename h (lit "/repo/a") = lit "a" ->
  path_basename h (lit "/m") = lit "m" ->
  path_basename h (lit "/repo") = lit "repo" ->
  localeCompare h (lit "a") (lit "m") < 0 ->
  localeCompare h (lit "m") (lit "repo") < 0 ->
  let child := Demo.repo_at (lit "/repo/a") dA in
  let other := Demo.repo_at (lit "/m") dM in
  let parent := Demo.repo_at (lit "/repo") dR in
  let offered := [toItem h child; toItem h other; toItem h parent] in
  startsWith (fsPath (rootUri child)) (fsPath (rootUri parent)) = true /\
  quickPickItems h [child; other; parent] = offered /\
  List.map detail offered = [lit "/repo/a"; lit "/m"; lit "/repo"] /\
  listed_before (toItem h child) (toItem h parent)
    (quickPickItems h [child; other; parent]) /\
  log (snd (selectRepo h [child; other; parent] w)) =
    log w ++ [EvShowQuickPick offered] /\
  compareItems h (toItem h child) (toItem h other) < 0 /\
  compareItems h (toItem h other) (toItem h parent) < 0 /\
  compareItems h (toItem h parent) (toItem h child) < 0.
Proof.
  intros Ha Hm Hr Ham Hmr child other parent offered.
  assert (Hco : compareItems h (toItem h child) (toItem h other) < 0).
  { unfold compareItems, toItem. simpl. rewrite Ha, Hm. exact Ham. }
  assert (Hop : compareItems h (toItem h other) (toItem h parent) < 0).
  { unfold compareItems, toItem. simpl. rewrite Hm, Hr. exact Hmr. }
  assert (Hpc : compareItems h (toItem h parent) (toItem h child) < 0).
  { unfold compareItems, toItem. simpl. lia. }
  assert (Hsorted : quickPickItems h [child; other; parent] = offered).
  { unfold quickPickItems. simpl List.map. simpl sort.
    destruct (Z.ltb_spec 0
                (compareItems h (toItem h other) (toItem h parent)));
      [lia|].
    simpl insert.
    destruct (Z.ltb_spec 0
                (compareItems h (toItem h child) (toItem h other)));
      [lia|].
    reflexivity. }
  split; [reflexivity|]. split; [exact Hsorted|].
  split; [reflexivity|]. split.
  - rewrite Hsorted. exists [], [toItem h other], []. reflexivity.
  - split; [|repeat split; assumption].
    unfold selectRepo. simpl. unfold bind, emit, ret. simpl.
    fold child other parent. rewrite Hsorted. reflexivity.
Qed.

(** ** The theorems at concrete inputs *)

(** Two files of the same age around a chunk without a path. *)
Lemma prioritized_is_stable_sort_witness :
  keyed Demo.host Demo.clean_repo (split_diff Sample.mixed_diff)
    Sample.mixed_entries /\
  fst (prioritize Demo.host Demo.clean_repo Sample.mixed_diff Demo.fresh) =
    Normal [lit "diff --git a/kept b/kept"; lit "diff --git a/x b/x";
            lit "diff -r"].
Proof.
  assert (H : keyed Demo.host Demo.clean_repo (split_diff Sample.mixed_diff)
                Sample.mixed_entries).
  { repeat (constructor; [split; reflexivity|]). constructor. }
  split; [exact H|].
  destruct (prioritized_is_stable_sort Demo.host Demo.ready_agent
              Demo.clean_repo Sample.mixed_diff Demo.fresh
              Sample.mixed_entries H) as (Hp & _).
  rewrite Hp. reflexivity.
Defined.

(** Four entries, two of them with the sentinel key. *)
Lemma sortDiffs_stable_witness :
  Forall (fun e => priority e <= MAX_SAFE_INTEGER) Demo.entries /\
  sortDiffs Demo.entries = [lit "a"; lit "b"; lit "c"; lit "d"] /\
  Forall (fun e => priority e = MAX_SAFE_INTEGER)
    [{| diff := lit "d"; priority := MAX_SAFE_INTEGER |}].
Proof.
  assert (Hrange :
            Forall (fun e => priority e <= MAX_SAFE_INTEGER) Demo.entries).
  { repeat (constructor; [vm_compute; discriminate|]). constructor. }
  split; [exact Hrange|]. split; [reflexivity|].
  destruct (sortDiffs_stable Demo.entries) as (_ & _ & _ & _ & _ & _ & H).
  apply (H Hrange
           [{| diff := lit "a"; priority := 5 |};
            {| diff := lit "b"; priority := 5 |}]
           {| diff := lit "c"; priority := MAX_SAFE_INTEGER |});
    reflexivity.
Defined.

(** An authorized agent and a caller with both hooks. *)
Lemma auth_hooks_once_witness :
  onAuthStart Demo.both_hooks = true /\
  onAuthEnd Demo.both_hooks = true /\
  count is_onAuthEnd
    (log (snd (openAuthPage Demo.ready_agent (Some Demo.both_hooks)
                 (new_world Demo.no_boxes)))) = 1%nat.
Proof.
  split; [reflexivity|]. split; [reflexivity|].
  destruct (auth_hooks_once Demo.ready_agent Demo.both_hooks Demo.no_boxes
              eq_refl eq_refl) as (_ & H & _).
  exact H.
Defined.

(** The user cancels while the URL is requested. *)
Lemma abort_is_cancelled_witness :
  aborted_while_pending Demo.cancelled_agent /\
  auth_outcome
    (openAuthPage Demo.cancelled_agent (Some Demo.both_hooks)
       (new_world Demo.no_boxes)) = Some Cancelled.
Proof.
  assert (H : aborted_while_pending Demo.cancelled_agent).
  { left. exists (ThrownError (lit "AbortError")). split; reflexivity. }
  split; [exact H|].
  destruct (abort_is_cancelled Demo.cancelled_agent
              (Some Demo.both_hooks) Demo.no_boxes H) as (_ & _ & Hc & _).
  exact Hc.
Defined.

(** No URL and the status [ready]. *)
Lemma no_url_outcomes_witness :
  requestAuthUrl Demo.ready_agent = Normal None /\
  getStatus Demo.ready_agent = lit "ready" /\
  auth_outcome
    (openAuthPage Demo.ready_agent None (new_world Demo.no_boxes)) =
    Some SucceededAlreadyActive.
Proof.
  split; [reflexivity|]. split; [reflexivity|].
  destruct (no_url_outcomes Demo.ready_agent None Demo.no_boxes eq_refl)
    as (_ & _ & H & _).
  destruct (H eq_refl) as [_ Hout]. exact Hout.
Defined.

(** A diff with a file that is gone, and a diff without a header. *)
Lemma lookups_all_or_nothing_witness :
  (exists item,
     In item (split_diff Demo.two_files) /\
     stat_fails Demo.host Demo.clean_repo item) /\
  inputBox
    (snd (generateFromDiff Demo.host Demo.ready_agent Demo.clean_repo
            Demo.two_files Demo.fresh)) = Demo.no_boxes /\
  (forall item,
     In item (split_diff Demo.no_header) ->
     ~ stat_fails Demo.host Demo.clean_repo item) /\
  exists l,
    fst (prioritize Demo.host Demo.clean_repo Demo.no_header Demo.fresh) =
      Normal l /\
    Permutation (split_diff Demo.no_header) l.
Proof.
  assert (Hfail : exists item,
             In item (split_diff Demo.two_files) /\
             stat_fails Demo.host Demo.clean_repo item).
  { exists (nth 1 (split_diff Demo.two_files) []). split.
    - right; left; reflexivity.
    - exists (lit "missing"), (ThrownError (lit "FileNotFound")).
      split; reflexivity. }
  assert (Hok : forall item,
             In item (split_diff Demo.no_header) ->
             ~ stat_fails Demo.host Demo.clean_repo item).
  { intros item [<-|[]] (f & e & Hf & _). discriminate Hf. }
  split; [exact Hfail|]. split.
  - destruct (lookups_all_or_nothing Demo.host Demo.ready_agent
                Demo.clean_repo Demo.two_files Demo.fresh)
      as (_ & _ & _ & H).
    destruct (H Hfail) as (item & f & e & Hrest).
    destruct Hrest as (_ & _ & _ & _ & _ & _ & _ & _ & Hbox). exact Hbox.
  - split; [exact Hok|].
    destruct (lookups_all_or_nothing Demo.host Demo.ready_agent
                Demo.clean_repo Demo.no_header Demo.fresh)
      as (_ & _ & H & _).
    exact (H Hok).
Defined.

(** The diff [x]. *)
Lemma no_boundary_single_chunk_witness :
  count_boundaries Demo.no_header = 0%nat /\
  split_diff Demo.no_header = [Demo.no_header].
Proof.
  split; [reflexivity|].
  destruct (no_boundary_single_chunk Demo.host Demo.clean_repo
              Demo.no_header (new_world Demo.no_boxes) eq_refl) as [H _].
  exact H.
Defined.

(** A repository without changes. *)
Lemma empty_diffs_no_effect_witness :
  repo_diff Demo.clean_repo true = Normal [] /\
  repo_diff Demo.clean_repo false = Normal [] /\
  generateForRepo Demo.host Demo.ready_agent Demo.clean_repo
    (new_world Demo.no_boxes) =
    (Normal tt,
     append_log (new_world Demo.no_boxes)
       [EvRepoDiff (rootUri Demo.clean_repo) true;
        EvRepoDiff (rootUri Demo.clean_repo) false]).
Proof.
  split; [reflexivity|]. split; [reflexivity|].
  destruct (empty_diffs_no_effect Demo.host Demo.ready_agent) as [H _].
  exact (H Demo.clean_repo (new_world Demo.no_boxes) eq_refl eq_refl).
Defined.

(** A blank staged diff in front of a padded unstaged diff. *)
Lemma diff_is_trimmed_witness :
  whitespace_only Demo.blank /\
  ~ whitespace_only Demo.padded /\
  getDiff Demo.unstaged_repo (new_world Demo.no_boxes) =
    (Normal (lit "diff --git a/kept b/kept"),
     append_log (new_world Demo.no_boxes)
       [EvRepoDiff (rootUri Demo.unstaged_repo) true;
        EvRepoDiff (rootUri Demo.unstaged_repo) false]).
Proof.
  assert (Hb : whitespace_only Demo.blank) by reflexivity.
  assert (Hp : ~ whitespace_only Demo.padded).
  { intros H. vm_compute in H. discriminate H. }
  split; [exact Hb|]. split; [exact Hp|].
  destruct (diff_is_trimmed Demo.host Demo.ready_agent Demo.unstaged_repo
              Demo.blank Demo.padded (new_world Demo.no_boxes)
              eq_refl eq_refl) as (_ & H & _).
  destruct (H Hb Hp) as [Hget _]. exact Hget.
Defined.

(** The three repositories under a host that names by the last path
    segment and compares by code units. *)
Lemma child_offered_before_parent_witness :
  path_basename Demo.host (lit "/repo/a") = lit "a" /\
  localeCompare Demo.host (lit "a") (lit "m") < 0 /\
  localeCompare Demo.host (lit "m") (lit "repo") < 0 /\
  List.map detail (quickPickItems Demo.host Demo.three_repos) =
    [lit "/repo/a"; lit "/m"; lit "/repo"].
Proof.
  split; [reflexivity|]. split; [reflexivity|]. split; [reflexivity|].
  destruct (child_offered_before_parent Demo.host Demo.quiet Demo.quiet
              Demo.quiet Demo.fresh eq_refl eq_refl eq_refl
              eq_refl eq_refl) as (_ & Hq & Hd & _).
  unfold Demo.three_repos. fold Demo.quiet. rewrite Hq. exact Hd.
Defined.

(** * Further properties *)

(** ** The authorization flow, all paths *)

(** X1: a run shows at most one notification and leaves the input boxes
    alone; unless an agent call is rejected with [null] or [undefined],
    the run returns normally in exactly one of the four terminal
    states. *)
Theorem auth_single_outcome (ag : Agent) (callbacks : option Callbacks)
  (boxes : jsstring -> jsstring) :
  let r := openAuthPage ag callbacks (new_world boxes) in
  (List.length (notifications_shown (log (snd r))) <= 1)%nat /\
  inputBox (snd r) = boxes /\
  (requestAuthUrl ag <> Abrupt ThrownNullish ->
   (forall c, waitForAuthToken ag c <> Abrupt ThrownNullish) ->
   fst r = Normal tt /\ exists t, auth_outcome r = Some t).
Proof.
  unfold auth_outcome. run_flow.
  split_callbacks callbacks; simpl;
    (destruct (requestAuthUrl ag) as [[u|]|[|name]] eqn:Hreq; simpl;
     [ destruct (waitForAuthToken ag (code u)) as [[]|[|name]] eqn:Hwait;
       simpl;
       [ destruct (eqb (getStatus ag) (lit "ready")); simpl
       |
       | destruct (eqb name (lit "AbortError")); simpl ]
     | destruct (eqb (getStatus ag) (lit "ready")); simpl
     |
     | destruct (eqb name (lit "AbortError")); simpl ]);
    (split; [lia|]); (split; [reflexivity|]);
    intros H1 H2; try congruence;
    try (exfalso; apply (H2 (code u)); exact Hwait);
    (split; [reflexivity | eexists; reflexivity]).
Qed.

(** X2: a rejection of either agent call with an error of any name other
    than [AbortError] is caught: the run returns normally and shows the
    failure notification, once, and nothing of the error. *)
Theorem failure_is_reported (ag : Agent) (callbacks : option Callbacks)
  (boxes : jsstring -> jsstring) (name : jsstring) :
  name <> lit "AbortError" ->
  (requestAuthUrl ag = Abrupt (ThrownError name) \/
   exists u, requestAuthUrl ag = Normal (Some u) /\
             waitForAuthToken ag (code u) = Abrupt (ThrownError name)) ->
  let r := openAuthPage ag callbacks (new_world boxes) in
  fst r = Normal tt /\
  notifications_shown (log (snd r)) = [AuthFailed] /\
  auth_outcome r = Some Failed.
Proof.
  intros Hname H. apply eqb_neq in Hname.
  unfold auth_outcome. run_flow.
  destruct H as [Hreq | (u & Hreq & Hwait)]; rewrite Hreq; simpl;
    try (rewrite Hwait; simpl);
    split_callbacks callbacks; simpl;
    destruct (eqb name (lit "AbortError")); try discriminate;
    repeat split; reflexivity.
Qed.

(** X3: when the token arrives but the agent is not [ready] afterwards,
    the failed assertion is caught like any other error: the browser was
    opened, no success is shown, and the run ends in [Failed]. *)
Theorem unready_after_token_is_failed (ag : Agent)
  (callbacks : option Callbacks) (boxes : jsstring -> jsstring)
  (u : AuthUrl) :
  requestAuthUrl ag = Normal (Some u) ->
  waitForAuthToken ag (code u) = Normal tt ->
  getStatus ag <> lit "ready" ->
  let r := openAuthPage ag callbacks (new_world boxes) in
  fst r = Normal tt /\
  notifications_shown (log (snd r)) = [AuthFailed] /\
  auth_outcome r = Some Failed /\
  count is_openExternal (log (snd r)) = 1%nat.
Proof.
  intros Hreq Hwait Hst. apply eqb_neq in Hst.
  unfold auth_outcome. run_flow. rewrite Hreq. simpl.
  rewrite Hwait. simpl.
  split_callbacks callbacks; simpl;
    destruct (eqb (getStatus ag) (lit "ready")); try discriminate;
    repeat split; reflexivity.
Qed.

(** X4: when an agent call is rejected with [null] or [undefined], the
    handler fails on reading the name: the run ends abruptly with a
    [TypeError], shows no notification at all, and still calls the end
    hook as its last step. *)
Theorem nullish_rejection_escapes (ag : Agent)
  (callbacks : option Callbacks) (boxes : jsstring -> jsstring) :
  (requestAuthUrl ag = Abrupt ThrownNullish \/
   exists u, requestAuthUrl ag = Normal (Some u) /\
             waitForAuthToken ag (code u) = Abrupt ThrownNullish) ->
  let r := openAuthPage ag callbacks (new_world boxes) in
  fst r = Abrupt (ThrownError (lit "TypeError")) /\
  notifications_shown (log (snd r)) = [] /\
  auth_outcome r = None /\
  exists before call,
    log (snd r) =
      before ++ call :: hook_events callbacks onAuthEnd EvOnAuthEnd /\
    is_bound_call call = true.
Proof.
  intros H. unfold auth_outcome. run_flow.
  destruct H as [Hreq | (u & Hreq & Hwait)]; rewrite Hreq; simpl;
    try (rewrite Hwait; simpl);
    split_callbacks callbacks; simpl;
    (split; [reflexivity|]); (split; [reflexivity|]);
    (split; [reflexivity|]);
    match goal with
    | |- exists before call, ?t = before ++ call :: ?tl /\ _ =>
        exists (firstn (List.length t - S (List.length tl)) t),
               (nth (List.length t - S (List.length tl)) t EvGetStatus)
    end;
    split; reflexivity.
Qed.

(** X5: the browser is opened exactly when the agent issues a URL: then
    once, with that URL, and before the wait for the token, which is
    made once with the code that came with the URL; without a URL
    neither happens. *)
Theorem browser_iff_url (ag : Agent) (callbacks : option Callbacks)
  (boxes : jsstring -> jsstring) :
  let trace := log (snd (openAuthPage ag callbacks (new_world boxes))) in
  (forall u,
     requestAuthUrl ag = Normal (Some u) ->
     listed_before (EvOpenExternal (authUrl u))
       (EvWaitForAuthToken (code u)) trace /\
     count is_openExternal trace = 1%nat /\
     count is_waitForAuthToken trace = 1%nat) /\
  ((forall u, requestAuthUrl ag <> Normal (Some u)) ->
   count is_openExternal trace = 0%nat /\
   count is_waitForAuthToken trace = 0%nat).
Proof.
  run_flow. split.
  - intros u Hreq. rewrite Hreq. simpl.
    split_callbacks callbacks; simpl;
      (destruct (waitForAuthToken ag (code u)) as [[]|[|name]]; simpl;
       [ destruct (eqb (getStatus ag) (lit "ready")); simpl
       |
       | destruct (eqb name (lit "AbortError")); simpl ]);
      (split; [|split; reflexivity]);
      unfold listed_before;
      match goal with
      | |- exists l1 l2 l3, ?t = _ =>
          first
            [ exists (firstn 2 t), (firstn 1 (skipn 3 t)), (skipn 5 t);
              reflexivity
            | exists (firstn 3 t), (firstn 1 (skipn 4 t)), (skipn 6 t);
              reflexivity ]
      end.
  - intros Hno.
    split_callbacks callbacks; simpl;
      (destruct (requestAuthUrl ag) as [[u|]|[|name]]; simpl;
       [ exfalso; apply (Hno u); reflexivity
       | destruct (eqb (getStatus ag) (lit "ready")); simpl
       |
       | destruct (eqb name (lit "AbortError")); simpl ]);
      split; reflexivity.
Qed.

(** ** The commit-message command, all paths *)

Lemma getDiff_rejected (repo : Repository) (e : thrown) (w : world) :
  repo_diff repo true = Abrupt e ->
  getDiff repo w = (Abrupt e, append_log w [EvRepoDiff (rootUri repo) true]).
Proof.
  intros H. unfold getDiff, bind, emit, await. simpl. rewrite H.
  reflexivity.
Qed.

Lemma count_cons (p : event -> bool) (e : event) (l : list event) :
  count p (e :: l) = ((if p e then 1 else 0) + count p l)%nat.
Proof. unfold count. simpl. destruct (p e); reflexivity. Qed.

Lemma count_nil (p : event -> bool) : count p [] = 0%nat.
Proof. reflexivity. Qed.

Ltac count_events h repo :=
  repeat first
    [ rewrite count_app
    | rewrite count_cons
    | rewrite count_nil
    | rewrite (count_stat_requests _ h repo) by reflexivity ];
  simpl.

Ltac fold_world w :=
  repeat match goal with
    | |- context [ {| log := log w ++ ?es; inputBox := inputBox w |} ] =>
        change {| log := log w ++ es; inputBox := inputBox w |}
          with (append_log w es)
    end.

(** X6: how the repository is chosen.  Without a git extension or
    without repositories the command shows its message and does nothing
    else.  One repository is taken without asking.  Several are offered
    in one quick pick that holds each of them once; dismissing it ends
    the command with no other effect, and a choice continues with the
    repository of the chosen item. *)
Theorem repository_selection (h : Host) (ag : Agent) (w : world) :
  (forall gitApi,
     gitApi = None \/ gitApi = Some [] ->
     generateCommitMessage h ag gitApi w =
       (Normal tt,
        append_log w
          [EvShowInformationMessage (lit "No Git repositories found.")])) /\
  (forall repo,
     generateCommitMessage h ag (Some [repo]) w =
       generateForRepo h ag repo w) /\
  (forall r1 r2 repos,
     let items := quickPickItems h (r1 :: r2 :: repos) in
     let asked := append_log w [EvShowQuickPick items] in
     Permutation (List.map (toItem h) (r1 :: r2 :: repos)) items /\
     (showQuickPick h items = None ->
      generateCommitMessage h ag (Some (r1 :: r2 :: repos)) w =
        (Normal tt, asked)) /\
     (forall item,
        showQuickPick h items = Some item ->
        generateCommitMessage h ag (Some (r1 :: r2 :: repos)) w =
          generateForRepo h ag (value item) asked)).
Proof.
  split; [|split].
  - intros gitApi [-> | ->]; reflexivity.
  - intros repo. unfold generateCommitMessage, selectRepo, bind, ret.
    simpl. reflexivity.
  - intros r1 r2 repos items asked.
    split; [apply sort_perm|].
    unfold generateCommitMessage, selectRepo, bind, emit, ret.
    change (List.length (r1 :: r2 :: repos) <? 1)%nat with false.
    change (List.length (r1 :: r2 :: repos) =? 1)%nat with false.
    cbv iota. fold items.
    split.
    + intros ->. reflexivity.
    + intros item ->. reflexivity.
Qed.


(** X8: whatever the repository, the host and the agent do, the command
    calls the agent at most once, and a run that does not end normally
    makes no write and leaves every input box as it was. *)
Theorem failure_leaves_input_box (h : Host) (ag : Agent)
  (repo : Repository) (w : world) :
  let r := generateForRepo h ag repo w in
  (count is_generateCommitMessage (log (snd r)) <=
   S (count is_generateCommitMessage (log w)))%nat /\
  (fst r <> Normal tt ->
   inputBox (snd r) = inputBox w /\
   count is_setInputBox (log (snd r)) = count is_setInputBox (log w)).
Proof.
  intros r. subst r. rewrite generateForRepo_run.
  assert (Htask : forall d es,
            count is_generateCommitMessage es = 0%nat ->
            count is_setInputBox es = 0%nat ->
            let r := generateFromDiff h ag repo d (append_log w es) in
            (count is_generateCommitMessage (log (snd r)) <=
             S (count is_generateCommitMessage (log w)))%nat /\
            (fst r <> Normal tt ->
             inputBox (snd r) = inputBox w /\
             count is_setInputBox (log (snd r)) =
               count is_setInputBox (log w))).
  { intros d es Hgen Hset.
    pose proof (generateFromDiff_run h ag repo d (append_log w es))
      as Hrun.
    cbv zeta in Hrun. cbv zeta. rewrite Hrun. clear Hrun.
    destruct (Promise_all _) as [l|e]; simpl.
    - destruct (agent_generateCommitMessage ag (sortDiffs l)); simpl.
      + split; [|congruence]. count_events h repo. rewrite Hgen. lia.
      + count_events h repo. rewrite Hgen, Hset. split; [lia|].
        intros _. split; [reflexivity | lia].
    - count_events h repo. rewrite Hgen, Hset. split; [lia|].
      intros _. split; [reflexivity | lia]. }
  unfold getDiff, bind, emit, await, ret. simpl.
  destruct (repo_diff repo true) as [staged|e]; simpl.
  - destruct (trim staged) as [|c t]; simpl.
    + destruct (repo_diff repo false) as [unstaged|e]; simpl.
      * destruct (trim unstaged) as [|c t]; simpl.
        -- count_events h repo. split; [lia|]. intros H; congruence.
        -- rewrite <- ?app_assoc. simpl app. fold_world w.
           rewrite append_log_app.
           apply (Htask (c :: t)
                    [EvRepoDiff (rootUri repo) true;
                     EvRepoDiff (rootUri repo) false;
                     EvExecuteCommand (lit "workbench.view.scm")]);
             reflexivity.
      * count_events h repo. split; [lia|].
        intros _. split; [reflexivity | lia].
    + rewrite <- ?app_assoc. simpl app. fold_world w.
      rewrite append_log_app.
      apply (Htask (c :: t)
               [EvRepoDiff (rootUri repo) true;
                EvExecuteCommand (lit "workbench.view.scm")]);
        reflexivity.
  - count_events h repo. split; [lia|].
    intros _. split; [reflexivity | lia].
Qed.

(** X9: the fallback to the unstaged diff is taken for an empty staged
    diff only, not for a failed one: a rejected request for the staged
    diff ends the command with that error after this one request, and a
    rejected request for the unstaged diff ends it after the two
    requests; the view is not focused and the agent is not called. *)
Theorem diff_rejection_propagates (h : Host) (ag : Agent)
  (repo : Repository) (e : thrown) (w : world) :
  (repo_diff repo true = Abrupt e ->
   generateForRepo h ag repo w =
     (Abrupt e, append_log w [EvRepoDiff (rootUri repo) true])) /\
  (forall staged,
     repo_diff repo true = Normal staged ->
     whitespace_only staged ->
     repo_diff repo false = Abrupt e ->
     generateForRepo h ag repo w =
       (Abrupt e,
        append_log w [EvRepoDiff (rootUri repo) true;
                      EvRepoDiff (rootUri repo) false])).
Proof.
  split.
  - intros H. rewrite generateForRepo_run, (getDiff_rejected repo e w H).
    reflexivity.
  - intros staged Hs Hws Hu. apply trim_nil_iff in Hws.
    rewrite generateForRepo_run, (getDiff_run repo staged w Hs), Hws, Hu.
    reflexivity.
Qed.

(** ** Trimming, splitting and the header pattern *)

Lemma trimStart_split (s : jsstring) :
  exists pre, s = pre ++ trimStart s /\ forallb isTrimmed pre = true.
Proof.
  induction s as [|c s IH]; simpl.
  - exists []. split; reflexivity.
  - destruct (isTrimmed c) eqn:E.
    + destruct IH as (pre & Hs & Hpre). exists (c :: pre). simpl.
      rewrite E, Hpre. split; [congruence | reflexivity].
    + exists []. split; reflexivity.
Qed.

Lemma trimStart_hd (s : jsstring) (c : char) (t : jsstring) :
  trimStart s = c :: t -> isTrimmed c = false.
Proof.
  induction s as [|d s IH]; simpl; [discriminate|].
  destruct (isTrimmed d) eqn:E; [exact IH|].
  intros H; inversion H; subst; exact E.
Qed.

Lemma trimStart_fix (s : jsstring) :
  (forall c t, s = c :: t -> isTrimmed c = false) -> trimStart s = s.
Proof.
  destruct s as [|c s]; simpl; [reflexivity|].
  intros H. rewrite (H c s eq_refl). reflexivity.
Qed.

Lemma trimStart_idem (s : jsstring) : trimStart (trimStart s) = trimStart s.
Proof.
  apply trimStart_fix. intros c t H. exact (trimStart_hd s c t H).
Qed.

Lemma trimEnd_split (s : jsstring) :
  exists post, s = trimEnd s ++ post /\ forallb isTrimmed post = true.
Proof.
  unfold trimEnd. destruct (trimStart_split (rev s)) as (pre & Hs & Hpre).
  exists (rev pre). split.
  - rewrite <- rev_app_distr, <- Hs, rev_involutive. reflexivity.
  - rewrite forallb_rev. exact Hpre.
Qed.

Lemma trim_head (s : jsstring) (c : char) (t : jsstring) :
  trim s = c :: t -> isTrimmed c = false.
Proof.
  intros H. unfold trim in H.
  destruct (trimEnd_split (trimStart s)) as (post & Hs & _).
  rewrite H in Hs. simpl in Hs.
  exact (trimStart_hd s c (t ++ post) Hs).
Qed.

Lemma trim_decompose (s : jsstring) :
  exists pre post,
    s = pre ++ trim s ++ post /\
    whitespace_only pre /\ whitespace_only post.
Proof.
  destruct (trimStart_split s) as (pre & Hs & Hpre).
  destruct (trimEnd_split (trimStart s)) as (post & Hu & Hpost).
  exists pre, post. unfold trim, whitespace_only.
  rewrite <- Hu. auto.
Qed.

Lemma trim_idem (s : jsstring) : trim (trim s) = trim s.
Proof.
  unfold trim at 1. rewrite (trimStart_fix (trim s) (trim_head s)).
  unfold trim, trimEnd. rewrite rev_involutive, trimStart_idem.
  reflexivity.
Qed.

(** X10: [trim] cuts a string down to its core: the string is the
    trimmed text with white space and line terminators in front of it
    and behind it, the trimmed text neither begins nor ends with such a
    code unit, and trimming again changes nothing. *)
Theorem trim_core (s : jsstring) :
  (exists pre post,
     s = pre ++ trim s ++ post /\
     whitespace_only pre /\ whitespace_only post) /\
  (forall c t, trim s = c :: t -> isTrimmed c = false) /\
  (forall t c, trim s = t ++ [c] -> isTrimmed c = false) /\
  trim (trim s) = trim s.
Proof.
  split; [apply trim_decompose|].
  split; [apply trim_head|].
  split; [|apply trim_idem].
  intros t c H. unfold trim, trimEnd in H.
  apply (f_equal (@rev char)) in H.
  rewrite rev_involutive, rev_app_distr in H. simpl in H.
  exact (trimStart_hd _ c (rev t) H).
Qed.

Lemma startsWith_app (s p t : jsstring) :
  startsWith s p = true -> startsWith (s ++ t) p = true.
Proof.
  revert s; induction p as [|c p IH]; intros [|d s]; simpl;
    try (intros; reflexivity); try discriminate.
  - intros _. destruct t; reflexivity.
  - rewrite !andb_true_iff. intros [H1 H2].
    split; [exact H1 | apply IH, H2].
Qed.

Lemma startsWith_split (s p : jsstring) :
  startsWith s p = true -> s = p ++ skipn (List.length p) s.
Proof.
  revert s; induction p as [|c p IH]; intros [|d s]; simpl;
    try (intros; reflexivity); try discriminate.
  rewrite andb_true_iff, N.eqb_eq. intros [-> H]. f_equal. apply IH, H.
Qed.

Lemma startsWith_prefix (p t : jsstring) : startsWith (p ++ t) p = true.
Proof. apply startsWith_app, startsWith_refl. Qed.

Lemma isBoundary_app (c : char) (s t : jsstring) :
  isBoundary c s = true -> isBoundary c (s ++ t) = true.
Proof.
  unfold isBoundary. rewrite !andb_true_iff.
  intros [H1 H2]. split; [exact H1 | apply startsWith_app, H2].
Qed.

Lemma count_boundaries_app (a b : jsstring) :
  (count_boundaries a + count_boundaries b <= count_boundaries (a ++ b))%nat.
Proof.
  induction a as [|c a IH]; simpl; [lia|].
  destruct (isBoundary c a) eqn:E.
  - rewrite (isBoundary_app c a b E). lia.
  - destruct (isBoundary c (a ++ b)); lia.
Qed.

Lemma count_boundaries_snoc (cur : jsstring) (c : char) (rest : jsstring) :
  isBoundary c rest = false ->
  count_boundaries (cur ++ c :: rest) = count_boundaries rest ->
  count_boundaries ((cur ++ [c]) ++ rest) = count_boundaries rest.
Proof. intros _ H. rewrite <- app_assoc. exact H. Qed.

Lemma split_scan_free (s cur : jsstring) :
  count_boundaries (cur ++ s) = count_boundaries s ->
  Forall (fun chunk => count_boundaries chunk = 0%nat) (split_scan cur s).
Proof.
  revert cur; induction s as [|c s IH]; intros cur H; simpl.
  - rewrite app_nil_r in H. simpl in H. constructor; [exact H | constructor].
  - pose proof (count_boundaries_app cur (c :: s)) as Hle.
    destruct (isBoundary c s) eqn:E.
    + constructor; [lia | apply IH; reflexivity].
    + apply IH. simpl in H. rewrite E in H.
      rewrite <- app_assoc. exact H.
Qed.

Lemma split_scan_head (s cur : jsstring) :
  exists p q,
    split_scan cur s = (cur ++ p) :: q /\
    forall pat,
      forallb (fun c => negb (N.eqb c LF)) pat = true ->
      startsWith s pat = true -> startsWith p pat = true.
Proof.
  revert cur; induction s as [|c s IH]; intros cur; simpl split_scan.
  - exists [], []. rewrite app_nil_r. split; [reflexivity | auto].
  - destruct (isBoundary c s) eqn:E.
    + exists [], (split_scan [] s). rewrite app_nil_r.
      split; [reflexivity|].
      intros [|a pat] Hpat H; [reflexivity|]. exfalso.
      cbn [forallb startsWith] in Hpat, H.
      apply andb_true_iff in H. destruct H as [H _].
      apply N.eqb_eq in H. subst a.
      apply isBoundary_LF in E. subst c. discriminate Hpat.
    + destruct (IH (cur ++ [c])) as (p & q & Hs & Hp).
      exists (c :: p), q. rewrite Hs, <- app_assoc.
      split; [reflexivity|].
      intros [|a pat] Hpat H; [reflexivity|].
      cbn [forallb startsWith] in Hpat, H |- *.
      apply andb_true_iff in Hpat. apply andb_true_iff in H.
      destruct Hpat as [_ Hpat]. destruct H as [Ha H].
      rewrite Ha. simpl. apply Hp; assumption.
Qed.

Lemma split_scan_tail (s cur : jsstring) :
  Forall (fun chunk => startsWith chunk kw_diff = true)
    (List.tl (split_scan cur s)).
Proof.
  revert cur; induction s as [|c s IH]; intros cur; simpl.
  - constructor.
  - destruct (isBoundary c s) eqn:E; [|apply IH].
    simpl. unfold isBoundary in E. apply andb_true_iff in E.
    destruct E as [_ E].
    destruct (split_scan_head s []) as (p & q & Hs & Hp).
    specialize (IH []). rewrite Hs in *. simpl in IH.
    constructor; [apply Hp; [reflexivity | exact E] | exact IH].
Qed.

(** X11: the chunks of a split are the pieces between the boundaries: no
    chunk holds a place where the split pattern matches, so that
    splitting a chunk again returns it unchanged, and every chunk behind
    the first begins with [diff]. *)
Theorem split_chunks_shape (d : jsstring) :
  Forall (fun chunk => count_boundaries chunk = 0%nat) (split_diff d) /\
  Forall (fun chunk => split_diff chunk = [chunk]) (split_diff d) /\
  Forall (fun chunk => startsWith chunk kw_diff = true)
    (List.tl (split_diff d)).
Proof.
  assert (H : Forall (fun chunk => count_boundaries chunk = 0%nat)
                (split_diff d))
    by (apply split_scan_free; reflexivity).
  split; [exact H|]. split; [|apply split_scan_tail].
  eapply Forall_impl; [|exact H].
  intros chunk Hc. apply (split_scan_no_boundary chunk [] Hc).
Qed.

Lemma startsWith_nil (s : jsstring) : startsWith s [] = true.
Proof. destruct s; reflexivity. Qed.

Lemma after_last_b_none_iff (y : jsstring) :
  after_last_b y = None <-> includes y kw_b = false.
Proof.
  induction y as [|c y IH]; [split; reflexivity|].
  cbn [after_last_b includes].
  destruct (after_last_b y) as [r|].
  - split; [discriminate|]. intros H. apply orb_false_iff in H.
    destruct H as [_ H]. apply IH in H. discriminate H.
  - destruct IH as [IH _]. rewrite (IH eq_refl), orb_false_r.
    destruct (startsWith (c :: y) kw_b); split; congruence.
Qed.

Lemma includes_skipn (n : nat) (s p : jsstring) :
  includes s p = false -> includes (skipn n s) p = false.
Proof.
  revert s; induction n as [|n IH]; intros s H; [exact H|].
  destruct s as [|c s]; [exact H|].
  simpl skipn. apply IH. cbn [includes] in H.
  apply orb_false_iff in H. tauto.
Qed.

Lemma after_last_b_behind (x y : jsstring) :
  after_last_b (x ++ kw_b ++ y) =
    match after_last_b y with
    | Some r => Some r
    | None => Some y
    end.
Proof.
  induction x as [|c x IH].
  - simpl. rewrite startsWith_nil.
    destruct (after_last_b y); reflexivity.
  - cbn [app after_last_b]. rewrite IH.
    destruct (after_last_b y); reflexivity.
Qed.

Lemma after_last_b_shape (line f : jsstring) :
  after_last_b line = Some f ->
  exists p, line = p ++ kw_b ++ f /\ includes f kw_b = false.
Proof.
  induction line as [|c line IH]; [discriminate|].
  cbn [after_last_b].
  destruct (after_last_b line) as [r|] eqn:E.
  - intros H; inversion H; subst r.
    destruct (IH eq_refl) as (p & Hl & Hf).
    exists (c :: p). simpl. rewrite Hl. split; [reflexivity | exact Hf].
  - destruct (startsWith (c :: line) kw_b) eqn:Hs; [|discriminate].
    intros H; inversion H as [Hf]. exists []. split.
    + apply (startsWith_split (c :: line) kw_b Hs).
    + apply after_last_b_none_iff in E.
      apply (includes_skipn 2 line kw_b E).
Qed.

Lemma line_of_app (l rest : jsstring) :
  forallb (fun c => negb (isLineTerminator c)) l = true ->
  (rest = [] \/ exists c r, rest = c :: r /\ isLineTerminator c = true) ->
  line_of (l ++ rest) = l.
Proof.
  intros Hl Hrest. induction l as [|c l IH]; simpl.
  - destruct Hrest as [-> | (c & r & -> & Hc)]; simpl;
      [reflexivity | rewrite Hc; reflexivity].
  - simpl in Hl. apply andb_true_iff in Hl. destruct Hl as [Hc Hl].
    apply negb_true_iff in Hc. rewrite Hc, (IH Hl). reflexivity.
Qed.

Lemma line_of_shape (s : jsstring) :
  exists post,
    s = line_of s ++ post /\
    forallb (fun c => negb (isLineTerminator c)) (line_of s) = true /\
    (post = [] \/ exists c r, post = c :: r /\ isLineTerminator c = true).
Proof.
  induction s as [|c s IH]; simpl.
  - exists []. repeat split. left; reflexivity.
  - destruct (isLineTerminator c) eqn:E.
    + exists (c :: s). repeat split. right. eauto.
    + destruct IH as (post & Hs & Hl & Hpost). exists post. simpl.
      rewrite E, Hl. repeat split; [congruence | exact Hpost].
Qed.

Lemma match_header_here_prefix (s : jsstring) :
  match_header_here (kw_header ++ s) = after_last_b (line_of s).
Proof.
  unfold match_header_here. rewrite startsWith_prefix.
  rewrite skipn_app, skipn_all, Nat.sub_diag. reflexivity.
Qed.

Lemma exec_header_here (item f : jsstring) :
  match_header_here item = Some f -> exec_header item = Some f.
Proof.
  intros H. destruct item; cbn [exec_header]; rewrite H; reflexivity.
Qed.

(** X12: the path that is read from a header line.  For a chunk that
    begins with [diff --git a/x b/y], up to the end of the line, the
    pattern yields [y] when [y] does not hold the text [ b/] itself; when
    it does, the pattern yields only what stands behind the last [ b/]
    in [y]. *)
Theorem header_path_extraction (x y rest : jsstring) :
  forallb (fun c => negb (isLineTerminator c)) (x ++ y) = true ->
  (rest = [] \/ exists c r, rest = c :: r /\ isLineTerminator c = true) ->
  (includes y kw_b = false ->
   exec_header (kw_header ++ x ++ kw_b ++ y ++ rest) = Some y) /\
  (forall y1 y2,
     y = y1 ++ kw_b ++ y2 ->
     includes y2 kw_b = false ->
     exec_header (kw_header ++ x ++ kw_b ++ y ++ rest) = Some y2).
Proof.
  intros Hline Hrest.
  assert (Hhere : match_header_here (kw_header ++ x ++ kw_b ++ y ++ rest) =
                  after_last_b (x ++ kw_b ++ y)).
  { rewrite match_header_here_prefix.
    replace (x ++ kw_b ++ y ++ rest) with ((x ++ kw_b ++ y) ++ rest)
      by (rewrite <- !app_assoc; reflexivity).
    rewrite line_of_app; [reflexivity| |exact Hrest].
    rewrite forallb_app in Hline. apply andb_true_iff in Hline.
    destruct Hline as [Hx Hy].
    rewrite !forallb_app, Hx, Hy. reflexivity. }
  split.
  - intros Hy. apply exec_header_here. rewrite Hhere, after_last_b_behind.
    apply after_last_b_none_iff in Hy. rewrite Hy. reflexivity.
  - intros y1 y2 -> Hy2. apply exec_header_here. rewrite Hhere.
    replace (x ++ kw_b ++ y1 ++ kw_b ++ y2)
      with ((x ++ kw_b ++ y1) ++ kw_b ++ y2)
      by (rewrite <- !app_assoc; reflexivity).
    rewrite after_last_b_behind.
    apply after_last_b_none_iff in Hy2. rewrite Hy2. reflexivity.
Qed.

(** X13: whatever the pattern yields is read off one line of the chunk:
    the chunk holds [diff --git a/], some text, [ b/] and the result, all
    on one line and in this order, the result reaches to the end of that
    line, and it does not hold the text [ b/]. *)
Theorem extracted_path_shape (item f : jsstring) :
  exec_header item = Some f ->
  exists pre x post,
    item = pre ++ kw_header ++ x ++ kw_b ++ f ++ post /\
    forallb (fun c => negb (isLineTerminator c)) (x ++ kw_b ++ f) = true /\
    includes f kw_b = false /\
    (post = [] \/ exists c r, post = c :: r /\ isLineTerminator c = true).
Proof.
  assert (Hhere : forall s,
            match_header_here s = Some f ->
            exists x post,
              s = kw_header ++ x ++ kw_b ++ f ++ post /\
              forallb (fun c => negb (isLineTerminator c))
                (x ++ kw_b ++ f) = true /\
              includes f kw_b = false /\
              (post = [] \/
               exists c r, post = c :: r /\ isLineTerminator c = true)).
  { intros s H. unfold match_header_here in H.
    destruct (startsWith s kw_header) eqn:Hs; [|discriminate].
    apply startsWith_split in Hs.
    destruct (line_of_shape (skipn (List.length kw_header) s))
      as (post & Hl & Hfree & Hpost).
    destruct (after_last_b_shape _ f H) as (x & Hx & Hf).
    exists x, post. rewrite Hx in Hl, Hfree.
    split; [|auto].
    rewrite Hs at 1. rewrite Hl at 1. rewrite <- !app_assoc. reflexivity. }
  induction item as [|c item IH]; cbn [exec_header].
  - discriminate.
  - destruct (match_header_here (c :: item)) eqn:E.
    + intros H; inversion H; subst.
      destruct (Hhere _ E) as (x & post & H1 & H2).
      exists [], x, post. split; [exact H1 | exact H2].
    + intros H. destruct (IH H) as (pre & x & post & H1 & H2).
      exists (c :: pre), x, post. simpl. rewrite H1.
      split; [reflexivity | exact H2].
Qed.

(** ** The settings commands *)

(** X14: without an explicit mode the toggle writes one of the two modes
    and never the current one, and a second toggle brings back the first
    mode when that was one of the two; a mode that is neither is
    replaced by [automatic].  An explicit mode is written as it is. *)
Theorem toggle_trigger_mode (current : jsstring) :
  (forall v, v <> [] ->
             toggleInlineCompletionTriggerMode (Some v) current = v) /\
  (forall value,
     value = None \/ value = Some [] ->
     let target := toggleInlineCompletionTriggerMode value current in
     (target = lit "automatic" \/ target = lit "manual") /\
     target <> current /\
     (current <> lit "automatic" -> target = lit "automatic") /\
     (current = lit "automatic" \/ current = lit "manual" ->
      toggleInlineCompletionTriggerMode value target = current)).
Proof.
  split.
  - intros [|c v] Hv; [congruence | reflexivity].
  - intros value Hvalue target.
    assert (Ht : target =
                 if eqb current (lit "automatic") then lit "manual"
                 else lit "automatic")
      by (destruct Hvalue as [-> | ->]; reflexivity).
    assert (Hagain : forall c,
              toggleInlineCompletionTriggerMode value c =
              if eqb c (lit "automatic") then lit "manual"
              else lit "automatic")
      by (intros c; destruct Hvalue as [-> | ->]; reflexivity).
    rewrite Hagain, Ht. clear Ht Hagain target.
    destruct (eqb current (lit "automatic")) eqn:E;
      [apply eqb_eq in E | apply eqb_neq in E].
    + subst current. repeat split; auto; try discriminate.
      intros H; contradiction.
    + repeat split; auto.
      intros [H | H]; [contradiction | subst current; reflexivity].
Qed.

(** X15: the two places that hold the token stay in step.  A dismissed
    box changes neither; a submitted text is written to both when it is
    not empty and removed from both when it is.  Submitting the box as it
    was opened stores the trimmed token of the agent, and clears both
    places when that token is empty or white space only. *)
Theorem token_stores_agree (st : TokenStores) :
  setApiToken None st = st /\
  (forall t,
     let st' := setApiToken (Some t) st in
     globalState_token st' = agent_token st' /\
     (t <> [] -> agent_token st' = Some t) /\
     (t = [] -> agent_token st' = None)) /\
  (forall configured,
     let shown :=
       match tokenPromptValue configured with Some t => t | None => [] end in
     let st' := setApiToken (Some shown) st in
     globalState_token st' = tokenPromptValue configured /\
     agent_token st' = tokenPromptValue configured /\
     (whitespace_only configured <-> agent_token st' = None) /\
     (~ whitespace_only configured ->
      agent_token st' = Some (trim configured))).
Proof.
  split; [reflexivity|]. split.
  - intros [|c t]; simpl; repeat split; congruence.
  - intros configured. unfold tokenPromptValue.
    rewrite <- trim_nil_iff.
    destruct (trim configured) as [|c t]; simpl;
      repeat split; try reflexivity; try congruence; try discriminate.
Qed.

(** X16: muting and resetting.  A reset for a type removes every entry
    of that type and keeps the other entries in their order: whichever
    entries one picks out, as long as the type is not among them, they
    are the same and in the same order before and after; the reset of a
    list in two parts is the reset of the first part followed by the
    reset of the second; an entry of another type stays and an entry of
    the type goes.  So a second reset changes nothing, and a reset that
    follows the muting of a type that was not muted before restores the
    list; muting the same type twice leaves two entries, which one reset
    removes.  A reset without a type or with the empty type clears the
    whole list. *)
Theorem mute_and_reset (stored : option (list jsstring)) (t : jsstring) :
  t <> [] ->
  let muted := muteNotifications t stored in
  let reset := resetMutedNotifications (Some t) in
  ~ In t (muted_get (reset muted)) /\
  ~ In t (muted_get (reset stored)) /\
  (forall p : jsstring -> bool,
     p t = false ->
     filter p (muted_get (reset stored)) = filter p (muted_get stored)) /\
  (forall l1 l2,
     muted_get (reset (Some (l1 ++ l2))) =
     muted_get (reset (Some l1)) ++ muted_get (reset (Some l2))) /\
  (forall x, x <> t -> reset (Some [x]) = Some [x]) /\
  reset (Some [t]) = Some [] /\
  (~ In t (muted_get stored) -> reset muted = Some (muted_get stored)) /\
  reset (muteNotifications t muted) = reset stored /\
  reset (reset stored) = reset stored /\
  resetMutedNotifications None muted = Some [] /\
  resetMutedNotifications (Some []) muted = Some [].
Proof.
  intros Ht muted reset. subst muted reset.
  unfold resetMutedNotifications, muteNotifications.
  destruct t as [|c t]; [congruence|]. cbn [truthy muted_get].
  set (l := muted_get stored).
  set (keep := fun x : jsstring => negb (eqb x (c :: t))).
  assert (Hself : keep (c :: t) = false).
  { unfold keep. rewrite (proj2 (eqb_eq _ _) eq_refl). reflexivity. }
  assert (Hfix : forall l0, ~ In (c :: t) l0 -> filter keep l0 = l0).
  { induction l0 as [|x l0 IH]; intros Hn; [reflexivity|].
    simpl. unfold keep at 1.
    destruct (eqb x (c :: t)) eqn:E.
    - apply eqb_eq in E. exfalso. apply Hn. left. exact E.
    - simpl. rewrite IH; [reflexivity|]. intros H. apply Hn. right. exact H. }
  assert (Hout : forall l0, ~ In (c :: t) (filter keep l0)).
  { intros l0 H. apply filter_In in H. destruct H as [_ H].
    rewrite Hself in H. discriminate. }
  split; [apply Hout|]. split; [apply Hout|]. split.
  { intros p Hp. induction l as [|y l IH]; [reflexivity|].
    simpl. unfold keep at 1.
    destruct (eqb y (c :: t)) eqn:E; simpl.
    - apply eqb_eq in E. subst y. rewrite Hp. exact IH.
    - destruct (p y); [rewrite IH|]; auto. }
  split; [intros l1 l2; apply filter_app|]. split.
  { intros x Hx. simpl. unfold keep.
    apply eqb_neq in Hx. rewrite Hx. reflexivity. }
  split; [simpl; rewrite Hself; reflexivity|].
  split.
  { intros Hn. rewrite filter_app. simpl. rewrite Hself, app_nil_r.
    rewrite (Hfix l Hn). reflexivity. }
  split.
  { rewrite !filter_app. simpl. rewrite Hself, !app_nil_r. reflexivity. }
  split; [rewrite (Hfix (filter keep l) (Hout l)); reflexivity|].
  split; reflexivity.
Qed.

(** X17: every entry of the help menu is handled: choosing it opens
    exactly one page, different entries open different pages, and a
    dismissed menu or any other label opens nothing. *)
Theorem online_help_covers_menu :
  (forall l, In l onlineHelpLabels ->
             exists url, openOnlineHelp (Some l) = [url] /\
                         startsWith url (lit "https://") = true) /\
  (forall l1 l2,
     In l1 onlineHelpLabels -> In l2 onlineHelpLabels ->
     openOnlineHelp (Some l1) = openOnlineHelp (Some l2) -> l1 = l2) /\
  (forall l, ~ In l onlineHelpLabels -> openOnlineHelp (Some l) = []) /\
  openOnlineHelp None = [] /\
  NoDup onlineHelpLabels.
Proof.
  split; [|split; [|split; [|split]]].
  - intros l Hl. simpl in Hl.
    destruct Hl as [<- | [<- | [<- | [<- | []]]]];
      eexists; split; reflexivity.
  - intros l1 l2 H1 H2. simpl in H1, H2.
    destruct H1 as [<- | [<- | [<- | [<- | []]]]];
      destruct H2 as [<- | [<- | [<- | [<- | []]]]];
      intros H; try reflexivity; vm_compute in H; discriminate H.
  - intros l Hl. unfold openOnlineHelp.
    repeat match goal with
      | |- context [eqb l ?s] =>
          let E := fresh "E" in
          destruct (eqb l s) eqn:E;
            [ apply eqb_eq in E; subst l; exfalso; apply Hl;
              unfold onlineHelpLabels; simpl; tauto | ]
      end.
    reflexivity.
  - reflexivity.
  - unfold onlineHelpLabels.
    repeat (constructor;
            [ simpl; intros H;
              repeat (destruct H as [H | H];
                      [vm_compute in H; discriminate H|]);
              exact H | ]).
    constructor.
Qed.

(** ** The path and the text of an explained selection *)

Lemma replace_first_unfold (s pattern : jsstring) :
  replace_first s pattern =
    if startsWith s pattern then skipn (List.length pattern) s
    else
      match s with
      | [] => []
      | c :: s' => c :: replace_first s' pattern
      end.
Proof. destruct s; reflexivity. Qed.

Lemma replace_first_absent (s pattern : jsstring) :
  includes s pattern = false -> replace_first s pattern = s.
Proof.
  induction s as [|c s IH]; cbn [includes]; intros H;
    apply orb_false_iff in H; destruct H as [H1 H2];
    rewrite replace_first_unfold, H1; [reflexivity|].
  rewrite (IH H2). reflexivity.
Qed.

(** X18: the path reported for the file of the selection.  A file below
    the workspace folder is reported by its path relative to the folder.
    Without a folder, or when the path of the folder does not occur in
    the name of the file, the name is reported without its leading
    slash.  The folder is cut out where it first occurs, also when that
    is not at the start of the name. *)
Theorem workspace_relative_path (folder file : jsstring) :
  (forall rel,
     file = folder ++ lit "/" ++ rel ->
     relativeFilepath (Some folder) file = rel) /\
  (relativeFilepath None file = relativeFilepath (Some []) file) /\
  (forall rest, file = lit "/" ++ rest ->
                relativeFilepath None file = rest) /\
  (includes file folder = false ->
   relativeFilepath (Some folder) file = relativeFilepath None file) /\
  (forall a b,
     file = a ++ folder ++ b ->
     (forall a1 a2, a = a1 ++ a2 -> a2 <> [] ->
                    startsWith (a2 ++ folder ++ b) folder = false) ->
     replace_first file folder = a ++ b).
Proof.
  assert (Hnil : forall s, replace_first s [] = s).
  { intros s. rewrite replace_first_unfold, startsWith_nil. reflexivity. }
  split; [|split; [|split; [|split]]].
  - intros rel ->. unfold relativeFilepath.
    rewrite replace_first_unfold, startsWith_prefix.
    rewrite skipn_app, skipn_all, Nat.sub_diag. simpl.
    rewrite startsWith_nil. reflexivity.
  - reflexivity.
  - intros rest ->. unfold relativeFilepath. rewrite Hnil. simpl.
    rewrite startsWith_nil. reflexivity.
  - intros H. unfold relativeFilepath.
    rewrite (replace_first_absent file folder H), Hnil. reflexivity.
  - intros a b -> Ha. induction a as [|c a IH].
    + simpl. rewrite replace_first_unfold, startsWith_prefix.
      rewrite skipn_app, skipn_all, Nat.sub_diag. reflexivity.
    + rewrite replace_first_unfold.
      rewrite (Ha [] (c :: a) eq_refl) by discriminate.
      simpl. f_equal. apply IH.
      intros a1 a2 -> Hne. apply (Ha (c :: a1) a2 eq_refl Hne).
Qed.

(** ** [alignIndent] *)

Lemma split_lines_scan_line (x cur s : jsstring) :
  one_line x ->
  split_lines_scan cur (x ++ s) = split_lines_scan (cur ++ x) s.
Proof.
  unfold one_line. revert cur; induction x as [|c x IH]; intros cur H.
  - rewrite app_nil_r. reflexivity.
  - cbn [forallb] in H. apply andb_true_iff in H. destruct H as [Hc Hx].
    apply negb_true_iff in Hc. cbn [app split_lines_scan]. rewrite Hc.
    rewrite (IH (cur ++ [c]) Hx), <- app_assoc. reflexivity.
Qed.

Lemma split_lines_join (ls : list jsstring) (cur : jsstring) :
  ls <> [] -> Forall one_line ls ->
  split_lines_scan cur (join [LF] ls) = (cur ++ hd [] ls) :: List.tl ls.
Proof.
  revert cur; induction ls as [|x ls IH]; intros cur Hne Hall;
    [congruence|].
  inversion Hall as [|? ? Hx Hls]; subst.
  destruct ls as [|y ls].
  - simpl. rewrite <- (app_nil_r x) at 1.
    rewrite (split_lines_scan_line x cur [] Hx). reflexivity.
  - rewrite join_cons by discriminate.
    rewrite (split_lines_scan_line x cur _ Hx).
    cbn [app split_lines_scan]. rewrite N.eqb_refl.
    rewrite (IH [] ltac:(discriminate) Hls). reflexivity.
Qed.

Lemma split_lines_scan_one_line (s cur : jsstring) :
  one_line cur -> Forall one_line (split_lines_scan cur s).
Proof.
  revert cur; induction s as [|c s IH]; intros cur H; simpl.
  - constructor; [exact H | constructor].
  - destruct (N.eqb c LF) eqn:E.
    + constructor; [exact H | apply IH; reflexivity].
    + apply IH. unfold one_line in *. rewrite forallb_app.
      apply andb_true_iff. split; [exact H|]. simpl. rewrite E.
      reflexivity.
Qed.

Lemma split_lines_scan_not_nil (s cur : jsstring) :
  split_lines_scan cur s <> [].
Proof.
  revert cur; induction s as [|c s IH]; intros cur; simpl.
  - discriminate.
  - destruct (N.eqb c LF); [discriminate | apply IH].
Qed.

Lemma one_line_skipn (k : nat) (l : jsstring) :
  one_line l -> one_line (skipn k l).
Proof.
  unfold one_line. intros H. rewrite <- (firstn_skipn k l) in H.
  rewrite forallb_app in H. apply andb_true_iff in H. tauto.
Qed.

Lemma one_line_trim (l : jsstring) : one_line l -> one_line (trim l).
Proof.
  unfold one_line. intros H.
  destruct (trim_decompose l) as (pre & post & Hl & _).
  rewrite Hl in H. rewrite !forallb_app in H.
  apply andb_true_iff in H. destruct H as [_ H].
  apply andb_true_iff in H. tauto.
Qed.

Lemma alignedLines_one_line (ls : list jsstring) :
  Forall one_line ls -> Forall one_line (alignedLines ls).
Proof.
  intros H. unfold alignedLines. constructor.
  - apply one_line_trim. destruct H; [reflexivity | assumption].
  - apply Forall_map. destruct H as [|l ls Hl Hls]; [constructor|].
    simpl. eapply Forall_impl; [|exact Hls].
    intros a Ha. destruct (minIndent ls); simpl;
      [apply one_line_skipn, Ha | reflexivity].
Qed.

Lemma split_lines_alignIndent (text : jsstring) :
  split_lines (alignIndent text) = alignedLines (split_lines text).
Proof.
  unfold alignIndent, split_lines at 1.
  rewrite split_lines_join.
  - reflexivity.
  - discriminate.
  - apply alignedLines_one_line, split_lines_scan_one_line. reflexivity.
Qed.

Lemma truthy_trim (l : jsstring) :
  truthy (trim l) = negb (forallb isTrimmed l).
Proof.
  destruct (forallb isTrimmed l) eqn:E.
  - apply trim_nil_iff in E. rewrite E. reflexivity.
  - destruct (trim l) eqn:Ht; [|reflexivity].
    apply trim_nil_iff in Ht. unfold whitespace_only in Ht. congruence.
Qed.

Lemma skipn_indent (k : nat) (l : jsstring) :
  (k <= indent_of l)%nat ->
  indent_of (skipn k l) = (indent_of l - k)%nat /\
  forallb isTrimmed (skipn k l) = forallb isTrimmed l /\
  trimStart (skipn k l) = trimStart l.
Proof.
  revert l; induction k as [|k IH]; intros l H.
  - simpl. rewrite Nat.sub_0_r. auto.
  - destruct l as [|c l]; [simpl in H; lia|].
    simpl in H |- *. destruct (isTrimmed c); [|lia].
    simpl. apply IH. lia.
Qed.

Lemma skipn_blank (k : nat) (l : jsstring) :
  forallb isTrimmed l = true ->
  forallb isTrimmed (skipn k l) = true /\ trimStart (skipn k l) = trimStart l.
Proof.
  intros H. assert (H' : forallb isTrimmed (skipn k l) = true).
  { rewrite <- (firstn_skipn k l) in H. rewrite forallb_app in H.
    apply andb_true_iff in H. tauto. }
  split; [exact H'|].
  apply trimStart_nil_iff in H. apply trimStart_nil_iff in H'. congruence.
Qed.

Lemma fold_min_indent (ls : list jsstring) (acc : option nat) :
  match
    fold_left
      (fun min line =>
         if truthy (trim line) then min_indent min (indent_of line)
         else min)
      ls acc
  with
  | None => acc = None /\ Forall whitespace_only ls
  | Some k =>
      (acc = Some k \/
       exists l, In l ls /\ ~ whitespace_only l /\ indent_of l = k) /\
      (forall a, acc = Some a -> (k <= a)%nat) /\
      (forall l, In l ls -> ~ whitespace_only l -> (k <= indent_of l)%nat)
  end.
Proof.
  revert acc; induction ls as [|l ls IH]; intros acc.
  - simpl. destruct acc as [a|].
    + split; [left; reflexivity|]. split.
      * intros a' H; inversion H; lia.
      * intros l [].
    + split; [reflexivity | constructor].
  - cbn [fold_left]. rewrite truthy_trim.
    specialize (IH (if negb (forallb isTrimmed l)
                    then min_indent acc (indent_of l) else acc)).
    destruct (fold_left _ ls _) as [k|].
    + destruct IH as (Hex & Hacc & Hall).
      destruct (forallb isTrimmed l) eqn:E; simpl in Hex, Hacc.
      * split; [|split].
        -- destruct Hex as [H | (l' & Hin & Hl')]; [left; exact H|].
           right. exists l'. split; [right; exact Hin | exact Hl'].
        -- exact Hacc.
        -- intros l' [<- | Hin] Hnb; [|apply Hall; assumption].
           exfalso. apply Hnb. exact E.
      * assert (Hl : ~ whitespace_only l)
          by (unfold whitespace_only; congruence).
        assert (Hk : (k <= indent_of l)%nat).
        { destruct acc as [a|]; simpl in Hacc.
          - specialize (Hacc _ eq_refl). lia.
          - specialize (Hacc _ eq_refl). lia. }
        split; [|split].
        -- destruct Hex as [H | (l' & Hin & Hl')].
           ++ destruct acc as [a|]; simpl in H; inversion H as [Hm].
              ** destruct (Nat.min_dec a (indent_of l)) as [Hd | Hd].
                 --- left. congruence.
                 --- right. exists l. split; [left; reflexivity|].
                     split; [exact Hl | congruence].
              ** right. exists l. split; [left; reflexivity|].
                 split; [exact Hl | reflexivity].
           ++ right. exists l'. split; [right; exact Hin | exact Hl'].
        -- intros a ->. simpl in Hacc. specialize (Hacc _ eq_refl). lia.
        -- intros l' [<- | Hin] Hnb; [exact Hk | apply Hall; assumption].
    + destruct IH as (Hacc & Hall).
      destruct (forallb isTrimmed l) eqn:E; simpl in Hacc.
      * split; [exact Hacc | constructor; assumption].
      * destruct acc; discriminate Hacc.
Qed.

Lemma minIndent_none (ls : list jsstring) :
  minIndent ls = None <-> Forall whitespace_only ls.
Proof.
  unfold minIndent. pose proof (fold_min_indent ls None) as H.
  destruct (fold_left _ ls None) as [k|].
  - split; [discriminate|]. intros Hall.
    destruct H as ([H | (l & Hin & Hnb & _)] & _); [discriminate|].
    rewrite Forall_forall in Hall. exfalso. apply Hnb, Hall, Hin.
  - split; [intros _; apply H | reflexivity].
Qed.

Lemma minIndent_some (ls : list jsstring) (k : nat) :
  minIndent ls = Some k <->
  (exists l, In l ls /\ ~ whitespace_only l /\ indent_of l = k) /\
  (forall l, In l ls -> ~ whitespace_only l -> (k <= indent_of l)%nat).
Proof.
  unfold minIndent. pose proof (fold_min_indent ls None) as H.
  destruct (fold_left _ ls None) as [k'|].
  - destruct H as ([H | Hex] & _ & Hall); [discriminate|]. split.
    + intros Hk; inversion Hk; subst. split; assumption.
    + intros ((l & Hin & Hnb & Hl) & Hmin).
      destruct Hex as (l' & Hin' & Hnb' & Hl').
      specialize (Hall l Hin Hnb). specialize (Hmin l' Hin' Hnb').
      f_equal. lia.
  - destruct H as [_ Hall]. split; [discriminate|].
    intros ((l & Hin & Hnb & _) & _).
    rewrite Forall_forall in Hall. exfalso. apply Hnb, Hall, Hin.
Qed.

Lemma realign (rest : list jsstring) :
  let out := List.map (slice_from (minIndent rest)) rest in
  List.map (slice_from (minIndent out)) out = out.
Proof.
  intros out. subst out. destruct (minIndent rest) as [k|] eqn:Hm.
  - apply minIndent_some in Hm. destruct Hm as ((l & Hin & Hnb & Hl) & Hmin).
    assert (H0 : minIndent (List.map (slice_from (Some k)) rest) = Some 0%nat).
    { apply minIndent_some. split.
      - exists (skipn k l). split.
        { apply in_map_iff. exists l. split; [reflexivity | exact Hin]. }
        destruct (skipn_indent k l) as (Hi & Hb & _); [lia|].
        unfold whitespace_only in *. rewrite Hb, Hi. split; [exact Hnb | lia].
      - intros; lia. }
    rewrite H0. simpl. rewrite List.map_id. reflexivity.
  - assert (H0 : minIndent (List.map (slice_from None) rest) = None).
    { apply minIndent_none. apply Forall_map, Forall_forall.
      intros; reflexivity. }
    rewrite H0, List.map_map. reflexivity.
Qed.

(** X19: what [alignIndent] does to the lines of a text.  The result
    has the same number of lines; its first line is the first line
    trimmed; every other line is the line it came from without some of
    its leading white space, and nothing else is removed.  The lines
    with content are all shifted by the same amount, which brings at
    least one of them to the first column; when no line behind the first
    has content, these lines are emptied. *)
Theorem alignIndent_lines (text : jsstring) :
  let lines := split_lines text in
  exists shift : option nat,
    split_lines (alignIndent text) =
      trim (hd [] lines) :: List.map (slice_from shift) (List.tl lines) /\
    List.length (split_lines (alignIndent text)) = List.length lines /\
    (forall l, In l (List.tl lines) ->
               trimStart (slice_from shift l) = trimStart l) /\
    (forall l k,
       In l (List.tl lines) -> shift = Some k -> ~ whitespace_only l ->
       (indent_of (slice_from shift l) + k)%nat = indent_of l) /\
    (forall k, shift = Some k ->
       exists l, In l (List.tl lines) /\ ~ whitespace_only l /\
                 indent_of (slice_from shift l) = 0%nat) /\
    (shift = None <-> Forall whitespace_only (List.tl lines)).
Proof.
  intros lines. exists (minIndent (List.tl lines)).
  rewrite split_lines_alignIndent. fold lines. unfold alignedLines.
  assert (Hne : lines <> []) by apply split_lines_scan_not_nil.
  split; [reflexivity|]. split.
  { destruct lines; [congruence|]. simpl. rewrite length_map. reflexivity. }
  destruct (minIndent (List.tl lines)) as [k|] eqn:Hm.
  - pose proof Hm as Hm'. apply minIndent_some in Hm'.
    destruct Hm' as ((l0 & Hin0 & Hnb0 & Hl0) & Hmin).
    split; [|split; [|split]].
    + intros l Hin. simpl.
      destruct (forallb isTrimmed l) eqn:E.
      * apply (skipn_blank k l E).
      * apply (skipn_indent k l). apply Hmin; [exact Hin|].
        unfold whitespace_only; congruence.
    + intros l k' Hin Hk Hnb. inversion Hk; subst k'. simpl.
      destruct (skipn_indent k l) as (Hi & _); [apply Hmin; assumption|].
      specialize (Hmin l Hin Hnb). lia.
    + intros k' Hk. inversion Hk; subst k'.
      exists l0. split; [exact Hin0|]. split; [exact Hnb0|]. simpl.
      destruct (skipn_indent k l0) as (Hi & _); lia.
    + split; [discriminate|].
      intros Hall. apply minIndent_none in Hall. congruence.
  - split; [|split; [|split]].
    + intros l Hin. simpl. apply minIndent_none in Hm.
      rewrite Forall_forall in Hm. specialize (Hm l Hin).
      apply trimStart_nil_iff in Hm. congruence.
    + intros l k _ Hk; discriminate Hk.
    + intros k Hk; discriminate Hk.
    + split; [|reflexivity]. intros _. apply minIndent_none, Hm.
Qed.

(** X20: aligning an aligned text changes nothing, and a text of one
    line is aligned by trimming it. *)
Theorem alignIndent_idempotent (text : jsstring) :
  alignIndent (alignIndent text) = alignIndent text /\
  (one_line text -> alignIndent text = trim text).
Proof.
  split.
  - unfold alignIndent at 1. rewrite split_lines_alignIndent.
    unfold alignIndent. f_equal.
    unfold alignedLines at 1. unfold alignedLines at 1 2.
    cbn [hd List.tl].
    rewrite trim_idem, realign. reflexivity.
  - intros H. unfold alignIndent, split_lines.
    rewrite <- (app_nil_r text) at 1.
    rewrite (split_lines_scan_line text [] [] H). reflexivity.
Qed.

(** ** The further properties at concrete inputs *)

(** An authorized agent. *)
Lemma auth_single_outcome_witness :
  requestAuthUrl Demo.ready_agent <> Abrupt ThrownNullish /\
  (forall c, waitForAuthToken Demo.ready_agent c <> Abrupt ThrownNullish) /\
  exists t,
    auth_outcome (openAuthPage Demo.ready_agent None Demo.fresh) = Some t.
Proof.
  assert (H1 : requestAuthUrl Demo.ready_agent <> Abrupt ThrownNullish)
    by discriminate.
  assert (H2 : forall c,
             waitForAuthToken Demo.ready_agent c <> Abrupt ThrownNullish)
    by (intros c; discriminate).
  split; [exact H1|]. split; [exact H2|].
  destruct (auth_single_outcome Demo.ready_agent None Demo.no_boxes)
    as (_ & _ & H).
  destruct (H H1 H2) as [_ Ht]. exact Ht.
Defined.

(** A network error while the URL is requested. *)
Lemma failure_is_reported_witness :
  lit "HttpError" <> lit "AbortError" /\
  requestAuthUrl Sample.failing_agent =
    Abrupt (ThrownError (lit "HttpError")) /\
  notifications_shown
    (log (snd (openAuthPage Sample.failing_agent None Demo.fresh))) =
    [AuthFailed].
Proof.
  assert (H : lit "HttpError" <> lit "AbortError") by discriminate.
  split; [exact H|]. split; [reflexivity|].
  destruct (failure_is_reported Sample.failing_agent None Demo.no_boxes
              (lit "HttpError") H (or_introl eq_refl)) as (_ & Hn & _).
  exact Hn.
Defined.

(** The token arrives and the agent is not authorized. *)
Lemma unready_after_token_is_failed_witness :
  getStatus Sample.unready_agent <> lit "ready" /\
  auth_outcome (openAuthPage Sample.unready_agent None Demo.fresh) =
    Some Failed.
Proof.
  assert (H : getStatus Sample.unready_agent <> lit "ready")
    by discriminate.
  split; [exact H|].
  destruct (unready_after_token_is_failed Sample.unready_agent None
              Demo.no_boxes Sample.url eq_refl eq_refl H)
    as (_ & _ & Ho & _).
  exact Ho.
Defined.

(** The request is rejected with [undefined]. *)
Lemma nullish_rejection_escapes_witness :
  requestAuthUrl Sample.nullish_agent = Abrupt ThrownNullish /\
  fst (openAuthPage Sample.nullish_agent (Some Demo.both_hooks) Demo.fresh) =
    Abrupt (ThrownError (lit "TypeError")).
Proof.
  split; [reflexivity|].
  destruct (nullish_rejection_escapes Sample.nullish_agent
              (Some Demo.both_hooks) Demo.no_boxes (or_introl eq_refl))
    as (H & _).
  exact H.
Defined.

(** A URL is issued. *)
Lemma browser_iff_url_witness :
  requestAuthUrl Sample.unready_agent = Normal (Some Sample.url) /\
  count is_openExternal
    (log (snd (openAuthPage Sample.unready_agent None Demo.fresh))) = 1%nat.
Proof.
  split; [reflexivity|].
  destruct (browser_iff_url Sample.unready_agent None Demo.no_boxes)
    as (H & _).
  destruct (H Sample.url eq_refl) as (_ & Hc & _). exact Hc.
Defined.

(** Three repositories, of which the host picks the first one offered. *)
Lemma repository_selection_witness :
  showQuickPick Demo.host (quickPickItems Demo.host Demo.three_repos) =
    hd_error (quickPickItems Demo.host Demo.three_repos) /\
  fst (generateCommitMessage Demo.host Demo.ready_agent
         (Some Demo.three_repos) Demo.fresh) = Normal tt /\
  generateCommitMessage Demo.host Demo.ready_agent None Demo.fresh =
    (Normal tt,
     append_log Demo.fresh
       [EvShowInformationMessage (lit "No Git repositories found.")]).
Proof.
  split; [reflexivity|].
  destruct (repository_selection Demo.host Demo.ready_agent Demo.fresh)
    as (Hnone & _ & Hpick).
  split.
  - destruct (Hpick (Demo.repo_at (lit "/repo/a") (fun _ => Normal []))
                (Demo.repo_at (lit "/m") (fun _ => Normal []))
                [Demo.repo_at (lit "/repo") (fun _ => Normal [])])
      as (_ & _ & Hsome).
    unfold Demo.three_repos.
    rewrite (Hsome _ eq_refl). reflexivity.
  - exact (Hnone None (or_introl eq_refl)).
Defined.


(** A repository whose diff cannot be read. *)
Lemma failure_leaves_input_box_witness :
  fst (generateForRepo Demo.host Demo.ready_agent Sample.broken_repo
         Demo.fresh) <> Normal tt /\
  inputBox
    (snd (generateForRepo Demo.host Demo.ready_agent Sample.broken_repo
            Demo.fresh)) = Demo.no_boxes.
Proof.
  assert (H : fst (generateForRepo Demo.host Demo.ready_agent
                     Sample.broken_repo Demo.fresh) <> Normal tt)
    by (vm_compute; discriminate).
  split; [exact H|].
  destruct (failure_leaves_input_box Demo.host Demo.ready_agent
              Sample.broken_repo Demo.fresh) as (_ & Hf).
  destruct (Hf H) as [Hbox _]. exact Hbox.
Defined.

Lemma diff_rejection_propagates_witness :
  repo_diff Sample.broken_repo true = Abrupt (ThrownError (lit "GitError")) /\
  fst (generateForRepo Demo.host Demo.ready_agent Sample.broken_repo
         Demo.fresh) = Abrupt (ThrownError (lit "GitError")).
Proof.
  split; [reflexivity|].
  destruct (diff_rejection_propagates Demo.host Demo.ready_agent
              Sample.broken_repo (ThrownError (lit "GitError")) Demo.fresh)
    as (H & _).
  rewrite (H eq_refl). reflexivity.
Defined.

(** The padded header line. *)
Lemma trim_core_witness :
  trim Demo.padded = lit "diff --git a/kept b/kept" /\
  isTrimmed 100%N = false.
Proof.
  split; [reflexivity|].
  destruct (trim_core Demo.padded) as (_ & H & _).
  exact (H 100%N (lit "iff --git a/kept b/kept") eq_refl).
Defined.

(** A header line with a line behind it. *)
Lemma header_path_extraction_witness :
  includes (lit "src/x.ts") kw_b = false /\
  exec_header Sample.header_line = Some (lit "src/x.ts").
Proof.
  split; [reflexivity|].
  destruct (header_path_extraction (lit "src/x.ts") (lit "src/x.ts")
              ([LF] ++ lit "index 1..2") eq_refl
              (or_intror
                 (ex_intro _ LF
                    (ex_intro _ (lit "index 1..2") (conj eq_refl eq_refl)))))
    as (H & _).
  exact (H eq_refl).
Defined.

Lemma extracted_path_shape_witness :
  exec_header Sample.header_line = Some (lit "src/x.ts") /\
  includes (lit "src/x.ts") kw_b = false.
Proof.
  split; [reflexivity|].
  destruct (extracted_path_shape Sample.header_line (lit "src/x.ts")
              eq_refl) as (pre & x & post & _ & _ & H & _).
  exact H.
Defined.

(** Toggling from [manual]. *)
Lemma toggle_trigger_mode_witness :
  toggleInlineCompletionTriggerMode None
    (toggleInlineCompletionTriggerMode None (lit "manual")) = lit "manual".
Proof.
  destruct (toggle_trigger_mode (lit "manual")) as (_ & H).
  destruct (H None (or_introl eq_refl)) as (_ & _ & _ & Hback).
  exact (Hback (or_intror eq_refl)).
Defined.

(** A configured token with a blank behind it. *)
Lemma token_stores_agree_witness :
  ~ whitespace_only (lit "abc ") /\
  agent_token
    (setApiToken (Some (lit "abc"))
       {| globalState_token := None; agent_token := None |}) =
    Some (lit "abc").
Proof.
  assert (H : ~ whitespace_only (lit "abc "))
    by (intros H; vm_compute in H; discriminate H).
  split; [exact H|].
  destruct (token_stores_agree
              {| globalState_token := None; agent_token := None |})
    as (_ & _ & Hc).
  destruct (Hc (lit "abc ")) as (_ & _ & _ & Hs).
  exact (Hs H).
Defined.

(** Muting a type on top of another one. *)
Lemma mute_and_reset_witness :
  lit "disconnected" <> [] /\
  ~ In (lit "disconnected") [lit "slow"] /\
  resetMutedNotifications (Some (lit "disconnected"))
    (muteNotifications (lit "disconnected") (Some [lit "slow"])) =
    Some [lit "slow"].
Proof.
  assert (H : lit "disconnected" <> []) by discriminate.
  assert (Hn : ~ In (lit "disconnected") [lit "slow"]).
  { intros [Hc | []]. vm_compute in Hc. discriminate Hc. }
  split; [exact H|]. split; [exact Hn|].
  destruct (mute_and_reset (Some [lit "slow"]) (lit "disconnected") H)
    as (_ & _ & _ & _ & _ & _ & Hr & _).
  exact (Hr Hn).
Defined.

Lemma online_help_covers_menu_witness :
  In (lit "Model Registry") onlineHelpLabels /\
  exists url, openOnlineHelp (Some (lit "Model Registry")) = [url] /\
              startsWith url (lit "https://") = true.
Proof.
  assert (H : In (lit "Model Registry") onlineHelpLabels)
    by (right; left; reflexivity).
  split; [exact H|].
  destruct online_help_covers_menu as (Hc & _).
  exact (Hc _ H).
Defined.

(** A file below the workspace folder. *)
Lemma workspace_relative_path_witness :
  lit "/ws/src/a.ts" = lit "/ws" ++ lit "/" ++ lit "src/a.ts" /\
  relativeFilepath (Some (lit "/ws")) (lit "/ws/src/a.ts") = lit "src/a.ts".
Proof.
  split; [reflexivity|].
  destruct (workspace_relative_path (lit "/ws") (lit "/ws/src/a.ts"))
    as (H & _).
  exact (H (lit "src/a.ts") eq_refl).
Defined.

(** A selection of three lines. *)
Lemma alignIndent_lines_witness :
  List.length (split_lines Sample.indented) = 3%nat /\
  List.length (split_lines (alignIndent Sample.indented)) = 3%nat.
Proof.
  split; [reflexivity|].
  destruct (alignIndent_lines Sample.indented) as (shift & _ & H & _).
  rewrite H. reflexivity.
Defined.

Lemma alignIndent_idempotent_witness :
  one_line (lit "  x  ") /\ alignIndent (lit "  x  ") = lit "x".
Proof.
  assert (H : one_line (lit "  x  ")) by reflexivity.
  split; [exact H|].
  destruct (alignIndent_idempotent (lit "  x  ")) as (_ & Ht).
  rewrite (Ht H). reflexivity.
Defined.
